(** * sherpa/csrc/text-utils.cc: a shallow embedding and its properties

    The file embeds the two algorithms of [text-utils.cc]:
    - the tolerant real-number reader ([NumberIstream], [ConvertStringToReal],
      [SplitStringToVector], [SplitStringToFloats]);
    - the word re-assembly pass ([IsPunct], the diacritic classifiers,
      [IsSpecial], [MergeCharactersIntoWords]).

    Conventions.  A [std::string] is a list of 8-bit characters, a
    [std::vector] is a list read through a checked index, [size_t] and
    [int32_t] are integers of [Z] with their wrap-around written out, and a
    computation returns a [result]: a value, an access outside a container,
    or an exhausted loop bound. *)

From Stdlib Require Import ZArith Ascii String.
From stdpp Require Import base tactics option list gmap strings.

Local Open Scope Z_scope.

(** ** Results of checked computations *)

Inductive result (A : Type) : Type :=
| Ok (a : A)
| OutOfBounds
| OutOfFuel.
Arguments Ok {A} a.
Arguments OutOfBounds {A}.
Arguments OutOfFuel {A}.

Definition bind {A B : Type} (m : result A) (f : A → result B) : result B :=
  match m with
  | Ok a => f a
  | OutOfBounds => OutOfBounds
  | OutOfFuel => OutOfFuel
  end.

Notation "x <- m ;; k" := (bind m (λ x, k))
  (at level 100, m at next level, right associativity).

(** C++ [a || b] and [a && b]: the right operand is evaluated only when the
    left one does not decide. *)
Definition orM (a b : result bool) : result bool :=
  x <- a;; if x then Ok true else b.
Definition andM (a b : result bool) : result bool :=
  x <- a;; if x then b else Ok false.
Definition notM (a : result bool) : result bool :=
  x <- a;; Ok (negb x).

(** [while cond body fuel s]: the C++ loop [while (cond) body], run for at
    most [fuel] iterations. *)
Fixpoint while {S : Type} (cond : S → bool) (body : S → result S)
    (fuel : nat) (s : S) : result S :=
  match fuel with
  | O => if cond s then OutOfFuel else Ok s
  | Datatypes.S fuel' =>
      if cond s then s' <- body s;; while cond body fuel' s' else Ok s
  end.

(** ** Strings, vectors and characters *)

Abbreviation str := (list ascii).

Definition lit (s : string) : str := list_ascii_of_string s.

(** [s.size()] and [v.size()] *)
Definition size {A : Type} (l : list A) : Z := Z.of_nat (length l).

(** [v[k]] on a [std::vector]: defined for [0 <= k < v.size()]. *)
Definition vec_at {A : Type} (v : list A) (k : Z) : result A :=
  if 0 <=? k then
    match v !! Z.to_nat k with
    | Some a => Ok a
    | None => OutOfBounds
    end
  else OutOfBounds.

(** [s[k]] on a [std::string]: defined for [0 <= k <= s.size()], the
    position [s.size()] holding the terminating NUL. *)
Definition char_at (s : str) (k : Z) : result ascii :=
  if 0 <=? k then
    match s !! Z.to_nat k with
    | Some c => Ok c
    | None => if k =? size s then Ok zero else OutOfBounds
    end
  else OutOfBounds.

(** [static_cast<uint8_t>(c)] *)
Definition byte (c : ascii) : Z := Z.of_N (N_of_ascii c).

(** [std::isspace], [std::ispunct] and [::toupper] in the "C" locale. *)
Definition isspace (c : ascii) : bool :=
  let b := byte c in (b =? 32) || ((9 <=? b) && (b <=? 13)).

Definition ispunct (c : ascii) : bool :=
  let b := byte c in
  ((33 <=? b) && (b <=? 47)) || ((58 <=? b) && (b <=? 64)) ||
  ((91 <=? b) && (b <=? 96)) || ((123 <=? b) && (b <=? 126)).

Definition toupper (c : ascii) : ascii :=
  let b := byte c in
  if (97 <=? b) && (b <=? 122) then ascii_of_N (Z.to_N (b - 32)) else c.

(** [static_cast<int32_t>(z)] *)
Definition to_int32 (z : Z) : Z := (z + 2 ^ 31) mod 2 ^ 32 - 2 ^ 31.

(** ** The word merger *)

Definition IsPunct (c : ascii) : bool :=
  negb (Ascii.eqb c "'"%char) && ispunct c.

Definition IsGermanUmlaut (word : str) : result bool :=
  b <- orM (Ok (negb (size word =? 2)))
          (c0 <- char_at word 0;; Ok (negb (byte c0 =? 0xc3)));;
  if b then Ok false
  else
    c0 <- char_at word 1;;
    let c := byte c0 in
    if (c =? 0xa4) || (c =? 0xb6) || (c =? 0xbc) || (c =? 0x84) ||
       (c =? 0x96) || (c =? 0x9c) || (c =? 0x9f)
    then Ok true
    else Ok false.

Definition IsSpanishDiacritic (word : str) : result bool :=
  b <- orM (Ok (negb (size word =? 2)))
          (c0 <- char_at word 0;; Ok (negb (byte c0 =? 0xc3)));;
  if b then Ok false
  else
    c0 <- char_at word 1;;
    let c := byte c0 in
    if (c =? 0xa1) || (c =? 0xa9) || (c =? 0xad) || (c =? 0xb3) ||
       (c =? 0xba) || (c =? 0xbc) || (c =? 0xb1) || (c =? 0x81) ||
       (c =? 0x89) || (c =? 0x8d) || (c =? 0x93) || (c =? 0x9a) ||
       (c =? 0x9c) || (c =? 0x91)
    then Ok true
    else Ok false.

Definition IsFrenchDiacritic (word : str) : result bool :=
  b <- orM (Ok (negb (size word =? 2)))
          (c0 <- char_at word 0;; Ok (negb (byte c0 =? 0xc3)));;
  if b then Ok false
  else
    c0 <- char_at word 1;;
    let c := byte c0 in
    if (c =? 0xa9) || (c =? 0xa0) || (c =? 0xa8) || (c =? 0xb9) ||
       (c =? 0xa7) || (c =? 0xa2) || (c =? 0xaa) || (c =? 0xae) ||
       (c =? 0xb4) || (c =? 0xbb) || (c =? 0xab) || (c =? 0xaf) ||
       (c =? 0xbc) || (c =? 0x89) || (c =? 0x80) || (c =? 0x88) ||
       (c =? 0x99) || (c =? 0x87) || (c =? 0x82) || (c =? 0x8a) ||
       (c =? 0x8e) || (c =? 0x94) || (c =? 0x9b) || (c =? 0x8b) ||
       (c =? 0x8f) || (c =? 0x9c)
    then Ok true
    else Ok false.

(** The first line of [IsSpecial]: the two-byte diacritics of the three
    languages. *)
Definition IsDiacritic (w : str) : result bool :=
  orM (orM (IsGermanUmlaut w) (IsSpanishDiacritic w)) (IsFrenchDiacritic w).

Definition IsSpecial (w : str) : result bool :=
  ans <- IsDiacritic w;;
  ans2 <- (if size w =? 3 then
            c0 <- char_at w 0;;
            c1 <- char_at w 1;;
            c2 <- char_at w 2;;
            if (byte c0 =? 0xe2) && (byte c1 =? 0x80) && (byte c2 =? 0x99)
            then Ok true else Ok false
          else Ok false);;
  Ok (ans || ans2).

(** The local variables of [MergeCharactersIntoWords] that the loop
    updates: the scan index [i], the start [prev] of the pending run
    ([-1] when there is none) and the output [ans]. *)
Record merge_state : Type := MergeState {
  m_i : Z;
  m_prev : Z;
  m_ans : list str;
}.

(** [for (; prev < i; ++prev) t.append(words[prev]);] on the pair
    [(prev, t)]. *)
Definition append_run (words : list str) (i : Z) (fuel : nat)
    (prev : Z) (t : str) : result (Z * str) :=
  while (λ pt, fst pt <? i)
        (λ pt, w <- vec_at words (fst pt);; Ok (fst pt + 1, snd pt ++ w))
        fuel (prev, t).

Section merger.
(** The merger is stated over the predicate it calls on a fragment, which
    is [IsSpecial] in the program. *)
Variable special : str → result bool.
Variable words : list str.

(** The test of line 307. *)
Definition self_terminating (w : str) : result bool :=
  orM (orM (Ok (3 <=? size w))
           (andM (Ok (size w =? 2)) (notM (special w))))
      (andM (Ok (size w =? 1))
            (orM (c <- char_at w 0;; Ok (IsPunct c))
                 (c <- char_at w 0;; Ok (isspace c)))).

(** The test of line 326. *)
Definition continuation (w : str) : result bool :=
  orM (Ok (size w =? 1)) (andM (Ok (size w =? 2)) (special w)).

(** One iteration of the [while (i < n)] loop. *)
Definition merge_body (st : merge_state) : result merge_state :=
  let i := m_i st in
  w <- vec_at words i;;
  self <- self_terminating w;;
  if self then
    st1 <- (if negb (m_prev st =? -1) then
             pt <- append_run words i (length words) (m_prev st) [];;
             Ok (MergeState i (-1) (m_ans st ++ [snd pt]))
           else Ok st);;
    c <- char_at w 0;;
    let ans := if negb (isspace c) then m_ans st1 ++ [w] else m_ans st1 in
    Ok (MergeState (i + 1) (m_prev st1) ans)
  else
    cont <- continuation w;;
    if cont then
      let prev := if m_prev st =? -1 then i else m_prev st in
      Ok (MergeState (i + 1) prev (m_ans st))
    else
      (* SHERPA_LOGE("Ignore %s", ...): a diagnostic only *)
      Ok (MergeState (i + 1) (m_prev st) (m_ans st)).

Definition merge_loop (n : Z) (st : merge_state) : result merge_state :=
  while (λ st, m_i st <? n) merge_body (length words) st.

(** The code after the loop: flush the run that is still pending. *)
Definition merge_finish (st : merge_state) : result (list str) :=
  if negb (m_prev st =? -1) then
    pt <- append_run words (m_i st) (length words) (m_prev st) [];;
    Ok (m_ans st ++ [snd pt])
  else Ok (m_ans st).

Definition merge_with : result (list str) :=
  let n := to_int32 (size words) in
  st <- merge_loop n (MergeState 0 (-1) []);;
  merge_finish st.
End merger.

Definition MergeCharactersIntoWords (words : list str) : result (list str) :=
  merge_with IsSpecial words.

(** ** The real-number reader *)

(** [std::string::npos] and the wrap-around of [size_t]. *)
Definition npos : Z := 2 ^ 64 - 1.
Definition to_size_t (z : Z) : Z := z mod 2 ^ 64.

Fixpoint take_while {A : Type} (p : A → bool) (l : list A) : list A :=
  match l with
  | [] => []
  | a :: l' => if p a then a :: take_while p l' else []
  end.

(** What the templates take from their element type [T] ([float] or
    [double]): the literal [0], the constants of [std::numeric_limits<T>],
    unary minus, and the standard library's extraction [std::istream >> T].
    [num_get rest] is the library's conversion of the characters [rest] at
    the read position, the first of which is not white space: how many of
    them it extracts, and the value when they form a number. *)
Class Real (T : Type) : Type := {
  real_zero : T;
  infinity : T;
  quiet_NaN : T;
  neg : T → T;
  num_get : str → nat * option T;
}.

(** The stream operations of the C++ standard library that [NumberIstream]
    calls are written out on a small state: their effect on the read
    position and on the state bits, as the standard fixes it for formatted
    and unformatted input (a sentry first; [eofbit] when the end is reached
    while reading; [failbit] when nothing can be extracted). *)

(** A [std::istringstream]: the buffer, the read position and the state
    bits ([badbit] is never set on a string buffer). *)
Record istream : Type := IStream {
  buf : str;
  pos : nat;
  eofbit : bool;
  failbit : bool;
}.

Definition good (s : istream) : bool := negb (eofbit s) && negb (failbit s).
Definition fail (s : istream) : bool := failbit s.
Definition clear (s : istream) : istream := IStream (buf s) (pos s) false false.
Definition setstate_failbit (s : istream) : istream :=
  IStream (buf s) (pos s) (eofbit s) true.
Definition at_end (b : str) (p : nat) : bool := bool_decide (length b ≤ p)%nat.

(** [std::istream::sentry]: a stream that is not good gets [failbit];
    otherwise white space is skipped unless [noskipws], and reaching the
    end while skipping sets [eofbit] and [failbit]. *)
Definition sentry (noskipws : bool) (s : istream) : bool * istream :=
  if good s then
    if noskipws then (true, s)
    else
      let p := (pos s + length (take_while isspace (drop (pos s) (buf s))))%nat in
      if at_end (buf s) p then (false, IStream (buf s) p true true)
      else (true, IStream (buf s) p false false)
  else (false, setstate_failbit s).

(** [in >> str] for a [std::string]: the characters up to the next white
    space or the end. *)
Definition extract_string (s : istream) (x : str) : istream * str :=
  let '(ok, s1) := sentry false s in
  if ok then
    let tok := take_while (λ c, negb (isspace c)) (drop (pos s1) (buf s1)) in
    let p := (pos s1 + length tok)%nat in
    (IStream (buf s1) p (at_end (buf s1) p) (bool_decide (tok = [])), tok)
  else (s1, x).

(** [in.tellg()]: [-1] when the stream has failed. *)
Definition tellg (s : istream) : Z * istream :=
  let '(ok, s1) := sentry true s in
  if ok then (Z.of_nat (pos s1), s1) else (-1, s1).

(** [in.seekg(0)]: clears [eofbit], then repositions unless the stream has
    failed. *)
Definition seekg0 (s : istream) : istream :=
  let '(ok, s1) := sentry true (IStream (buf s) (pos s) false (failbit s)) in
  if ok then IStream (buf s1) 0 (eofbit s1) (failbit s1) else s1.

(** [rem.find_first_not_of(c)] *)
Definition find_first_not_of (s : str) (c : ascii) : Z :=
  match list_find (λ x, x ≠ c) s with
  | Some (k, _) => Z.of_nat k
  | None => npos
  end.

(** [full.find_first_of(chars, start)] *)
Definition find_first_of (s chars : str) (start : Z) : Z :=
  match list_find (λ x, x ∈ chars) (drop (Z.to_nat start) s) with
  | Some (k, _) => start + Z.of_nat k
  | None => npos
  end.

(** [full.substr(start, len)]: the [min len (size - start)] characters from
    [start]; it throws when [start] is past the end. *)
Definition substr (s : str) (start len : Z) : result str :=
  if size s <? start then OutOfBounds
  else
    let rlen := Z.min len (size s - start) in
    Ok (take (Z.to_nat rlen) (drop (Z.to_nat start) s)).

(** The characters of a [const char *]: those before the first NUL. *)
Definition c_str (s : str) : str :=
  take_while (λ c, negb (Ascii.eqb c zero)) s.

(** The variables [start], [found] and [out] of [SplitStringToVector]. *)
Definition split_body (full delim : str) (omit_empty_strings : bool)
    (st : Z * Z * list str) : result (Z * Z * list str) :=
  let '(start, _, out) := st in
  let end_ := size full in
  let found := find_first_of full delim start in
  out' <- (if negb omit_empty_strings ||
              (negb (found =? start) && negb (start =? end_))
           then
             piece <- substr full start (to_size_t (found - start));;
             Ok (out ++ [piece])
           else Ok out);;
  Ok (to_size_t (found + 1), found, out').

Definition SplitStringToVector (full delim : str)
    (omit_empty_strings : bool) : result (list str) :=
  st <- while (λ st, negb (snd (fst st) =? npos))
              (split_body full (c_str delim) omit_empty_strings)
              (Datatypes.S (length full)) (0, 0, []);;
  Ok (snd st).

(** The assignment to element [i] of the vector [out]. *)
Definition vec_set {A : Type} (v : list A) (k : Z) (a : A) : result (list A) :=
  if (0 <=? k) && (k <? size v) then Ok (<[Z.to_nat k := a]> v)
  else OutOfBounds.

Section number_istream.
Context {T : Type} `{!Real T}.

(** [in >> x] for the real type. *)
Definition extract_real (s : istream) (x : T) : istream * T :=
  let '(ok, s1) := sentry false s in
  if ok then
    let '(k, r) := num_get (drop (pos s1) (buf s1)) in
    let p := (pos s1 + k)%nat in
    match r with
    | Some v => (IStream (buf s1) p (at_end (buf s1) p) false, v)
    | None => (IStream (buf s1) p (at_end (buf s1) p) true, real_zero)
    end
  else (s1, x).

(** [in_ >> rem] leaves [rem] empty when only white space is left, and a
  non-empty [rem] starts with a character that is not a space. *)
Definition RemainderIsOnlySpaces (s : istream) : bool * istream :=
  let '(p, s1) := tellg s in
  if negb (p =? -1) then
    let '(s2, rem) := extract_string s1 [] in
    if negb (find_first_not_of rem " "%char =? npos) then (false, s2)
    else (true, clear s2)
  else (true, clear s1).

(** The thirteen assignments to [inf_nan_map], the first innermost. *)
Definition inf_nan_map : gmap str T :=
  <[lit "-1.#QNAN" := neg quiet_NaN]> (
  <[lit "1.#QNAN" := quiet_NaN]> (
  <[lit "-1.#INF" := neg infinity]> (
  <[lit "1.#INF" := infinity]> (
  <[lit "-NAN" := neg quiet_NaN]> (
  <[lit "+NAN" := quiet_NaN]> (
  <[lit "NAN" := quiet_NaN]> (
  <[lit "-INFINITY" := neg infinity]> (
  <[lit "+INFINITY" := infinity]> (
  <[lit "INFINITY" := infinity]> (
  <[lit "-INF" := neg infinity]> (
  <[lit "+INF" := infinity]> (
  <[lit "INF" := infinity]> ∅)))))))))))).

(** [many] is the condition [!(in_ >> str) || !RemainderIsOnlySpaces()]. *)
Definition ParseOnFail (s : istream) (x : T) : istream * T :=
  let s1 := seekg0 (clear s) in
  let '(s2, str) := extract_string s1 [] in
  let '(many, s3) :=
    if fail s2 then (true, s2)
    else let '(b, s') := RemainderIsOnlySpaces s2 in (negb b, s') in
  if many then (setstate_failbit s3, x)
  else
    let str := toupper <$> str in
    match inf_nan_map !! str with
    | Some v => (s3, v)
    | None => (setstate_failbit s3, x)
    end.

(** Lines 34 and 35 of [NumberIstream::operator>>]: the standard
    extraction and the test [!in_.fail() && RemainderIsOnlySpaces()]. *)
Definition standard_parse (s : istream) (x : T) : bool * (istream * T) :=
  let '(s1, x1) := extract_real s x in
  let '(only, s2) :=
    if negb (fail s1) then RemainderIsOnlySpaces s1 else (false, s1) in
  (only, (s2, x1)).

(** [NumberIstream::operator>>] *)
Definition read_number (s : istream) (x : T) : istream * T :=
  if negb (good s) then (s, x)
  else
    let '(only, (s2, x1)) := standard_parse s x in
    if only then (s2, x1) else ParseOnFail s2 x1.

(** The returned pair is the result and the value of [*out] after the
    call. *)
Definition ConvertStringToReal (str : str) (out : T) : bool * T :=
  let '(iss, x) := read_number (IStream str 0 false false) out in
  (negb (fail iss), x).

(** The [for] loop of [SplitStringToFloats]; [false] is its early
    [return false]. *)
Fixpoint convert_pieces (fuel : nat) (split : list str) (i : Z)
    (out : list T) : result (bool * list T) :=
  if i <? size split then
    match fuel with
    | O => OutOfFuel
    | Datatypes.S fuel' =>
        piece <- vec_at split i;;
        let '(ok, f) := ConvertStringToReal piece real_zero in
        if negb ok then Ok (false, out)
        else
          out' <- vec_set out i f;;
          convert_pieces fuel' split (i + 1) out'
    end
  else Ok (true, out).

(** The returned pair is the result and the contents of [*out] after the
    call; [out] is its contents before. *)
Definition SplitStringToFloats (full delim : str)
    (omit_empty_strings : bool) (out : list T) : result (bool * list T) :=
  c <- char_at full 0;;
  if Ascii.eqb c zero then Ok (true, [])
  else
    split <- SplitStringToVector full delim omit_empty_strings;;
    let out := resize (length split) real_zero out in
    convert_pieces (length split) split 0 out.
End number_istream.

(** ** A reference instance of [Real]

    Decimal literals [sign? digit* ('.' digit* )?] with at least one digit,
    read exactly; it is used to run the reader on concrete inputs. *)

Inductive dec : Type :=
| Finite (mantissa : Z) (decimals : nat)
| Inf (negative : bool)
| NaN (negative : bool).

Definition dec_neg (d : dec) : dec :=
  match d with
  | Finite m k => Finite (- m) k
  | Inf b => Inf (negb b)
  | NaN b => NaN (negb b)
  end.

Definition is_digit (c : ascii) : bool := (48 <=? byte c) && (byte c <=? 57).

Definition digits_value (l : str) : Z :=
  fold_left (λ a c, 10 * a + (byte c - 48)) l 0.

Definition dec_get (s : str) : nat * option dec :=
  let '(sgn, k0) :=
    match s with
    | c :: _ => if Ascii.eqb c "-" then (-1, 1%nat)
                else if Ascii.eqb c "+" then (1, 1%nat) else (1, 0%nat)
    | [] => (1, 0%nat)
    end in
  let s1 := drop k0 s in
  let ip := take_while is_digit s1 in
  let s2 := drop (length ip) s1 in
  let '(fp, kdot) :=
    match s2 with
    | c :: r => if Ascii.eqb c "." then (take_while is_digit r, 1%nat)
                else ([], 0%nat)
    | [] => ([], 0%nat)
    end in
  let k := (k0 + length ip + kdot + length fp)%nat in
  if (length ip + length fp =? 0)%nat then (k, None)
  else (k, Some (Finite (sgn * digits_value (ip ++ fp)) (length fp))).

#[global] Instance dec_real : Real dec := {|
  real_zero := Finite 0 0;
  infinity := Inf false;
  quiet_NaN := NaN false;
  neg := dec_neg;
  num_get := dec_get;
|}.

(** ** Pure readings of the merger, used to reason about the loop *)

Inductive kind : Type := SelfTerminating | Continuation | Unrecognized.

(** The class of a fragment, given the truth value [sp] of the special
    test on two-byte fragments. *)
Definition classify (sp : str → bool) (w : str) : kind :=
  match w with
  | [] => Unrecognized
  | [c] => if IsPunct c || isspace c then SelfTerminating else Continuation
  | [_; _] => if sp w then Continuation else SelfTerminating
  | _ => SelfTerminating
  end.

(** [w[0]] *)
Definition first_char (w : str) : ascii := default zero (head w).

(** What the self-terminating branch pushes for [w] itself. *)
Definition emit (w : str) : list str :=
  if isspace (first_char w) then [] else [w].

Definition flush (pend : option str) : list str :=
  match pend with Some t => [t] | None => [] end.

(** The output for the fragments [ws] when the bytes [pend] of a run are
    pending. *)
Fixpoint run (sp : str → bool) (ws : list str) (pend : option str) : list str :=
  match ws with
  | [] => flush pend
  | w :: ws' =>
      match classify sp w with
      | SelfTerminating => flush pend ++ emit w ++ run sp ws' None
      | Continuation => run sp ws' (Some (default [] pend ++ w))
      | Unrecognized => run sp ws' pend
      end
  end.

(** The fragments [words[a], ..., words[b-1]]. *)
Definition range (words : list str) (a b : Z) : list str :=
  take (Z.to_nat (b - a)) (drop (Z.to_nat a) words).

Definition unwrap (r : result bool) : bool :=
  match r with Ok b => b | _ => false end.

Definition total_bytes (ws : list str) : Z := size (concat ws).


(** The bytes of the pending run [[prev, i)] of a loop state. *)
Definition pending (words : list str) (st : merge_state) : option str :=
  if m_prev st =? -1 then None
  else Some (concat (range words (m_prev st) (m_i st))).

(** The loop invariant on the indices: a pending run starts before [i]. *)
Definition wf_state (st : merge_state) : Prop :=
  0 ≤ m_i st ∧ (m_prev st = -1 ∨ 0 ≤ m_prev st < m_i st).

(** The truth values of the special tests, which never leave the string. *)
Definition is_diacritic (w : str) : bool := unwrap (IsDiacritic w).
Definition is_special (w : str) : bool := unwrap (IsSpecial w).

(** The fragments that reach the diagnostic of line 334. *)
Definition unrecognized (w : str) : Prop :=
  self_terminating IsSpecial w = Ok false ∧ continuation IsSpecial w = Ok false.

(** The fragments that the self-terminating branch leaves out of the
    output: line 318 looks at the first byte only. *)
Definition dropped (w : str) : bool :=
  unwrap (self_terminating IsSpecial w) && isspace (first_char w).

(** A fragment made of white space only. *)
Definition pure_whitespace (w : str) : bool := forallb isspace w.

(** A word of the output: not empty, and not starting with white space. *)
Definition word_ok (w : str) : Prop := w ≠ [] ∧ isspace (first_char w) = false.

(** The self-terminating rule in the words of the specification: at least
    three bytes; or two bytes that are not a recognized diacritic pair; or
    one byte that is white space or punctuation other than the
    apostrophe. *)
Definition spec_self_terminating (w : str) : bool :=
  (3 <=? size w) ||
  ((size w =? 2) && negb (is_diacritic w)) ||
  ((size w =? 1) &&
   (isspace (first_char w) ||
    (ispunct (first_char w) && negb (Ascii.eqb (first_char w) "'")))).

(** The continuation rule in the words of the specification. *)
Definition spec_continuation (w : str) : bool :=
  ((size w =? 1) && negb (spec_self_terminating w)) ||
  ((size w =? 2) && is_diacritic w).

(** The self-terminating step as the specification words it: the pending
    run is flushed, then [w] is emitted unless it is pure white space. *)
Definition emits_unless_pure_whitespace (words : list str) (st : merge_state) : Prop :=
  ∀ w, words !! Z.to_nat (m_i st) = Some w →
       spec_self_terminating w = true →
       merge_body IsSpecial words st =
       Ok (MergeState (m_i st + 1) (-1)
             (m_ans st ++ flush (pending words st) ++
              (if pure_whitespace w then [] else [w]))).

(** Byte conservation as the specification words it: only the bytes of
    white-space fragments are missing from the output. *)
Definition conserves_bytes_up_to_whitespace (words : list str) : Prop :=
  ∀ out, MergeCharactersIntoWords words = Ok out →
         total_bytes out =
         total_bytes words - total_bytes (List.filter pure_whitespace words).

Definition is_unrecognized (w : str) : bool :=
  negb (unwrap (self_terminating IsSpecial w)) &&
  negb (unwrap (continuation IsSpecial w)).

(** ** Vocabulary for the claims about the reader *)

(** The characters of a stream that are still to be read. *)
Definition rest (s : istream) : str := drop (pos s) (buf s).

Definition all_space (ws : str) : Prop := Forall (λ c, isspace c = true) ws.

(** A white-space delimited token: not empty, no white space inside. *)
Definition is_token (tok : str) : Prop :=
  tok ≠ [] ∧ Forall (λ c, isspace c = false) tok.

(** What may follow a token: nothing, or something that starts with white
    space. *)
Definition ends_token (tail : str) : Prop :=
  match tail with [] => True | c :: _ => isspace c = true end.

(** The thirteen spellings of the specification. *)
Definition spellings : list str :=
  lit <$> ["INF"; "+INF"; "-INF"; "INFINITY"; "+INFINITY"; "-INFINITY";
           "NAN"; "+NAN"; "-NAN"; "1.#INF"; "-1.#INF"; "1.#QNAN";
           "-1.#QNAN"]%string.

Definition positive_inf_spellings : list str :=
  lit <$> ["INF"; "+INF"; "INFINITY"; "+INFINITY"; "1.#INF"]%string.

Definition negative_inf_spellings : list str :=
  lit <$> ["-INF"; "-INFINITY"; "-1.#INF"]%string.

(** Atomic failure of the batch, as the specification words it: when the
    call returns false the output vector holds nothing. *)
Definition fails_with_no_output {T : Type} `{!Real T}
    (full delim : str) (omit_empty_strings : bool) (out0 : list T) : Prop :=
  ∀ out, SplitStringToFloats full delim omit_empty_strings out0 = Ok (false, out) →
         out = [].

(** The fragments that extend or start a pending run. *)
Definition is_continuation (w : str) : Prop :=
  self_terminating IsSpecial w = Ok false ∧ continuation IsSpecial w = Ok true.

(** ** Vocabulary for the splitter *)

(** The test that [find_first_of] makes on a character. *)
Definition is_delim (delim : str) (c : ascii) : bool :=
  bool_decide (c ∈ c_str delim).

(** The pieces of [s] between the characters that satisfy [d]: one more
    piece than there are such characters. *)
Fixpoint pieces (d : ascii → bool) (s : str) : list str :=
  match s with
  | [] => [[]]
  | c :: s' =>
      if d c then [] :: pieces d s'
      else match pieces d s' with
           | p :: ps => (c :: p) :: ps
           | [] => [[c]]
           end
  end.

Definition nonempty (p : str) : bool := negb (bool_decide (p = [])).

(** What [omit_empty_strings] keeps of a list of pieces. *)
Definition keep (omit_empty_strings : bool) (ps : list str) : list str :=
  if omit_empty_strings then List.filter nonempty ps else ps.

(** The pieces [ps] written one after the other with [d] between them. *)
Fixpoint join (d : ascii) (ps : list str) : str :=
  match ps with
  | [] => []
  | p :: ps' =>
      match ps' with
      | [] => p
      | _ :: _ => p ++ d :: join d ps'
      end
  end.

(** ** Vocabulary for the grouping of fragments *)

Definition flush_group (pend : list str) : list (list str) :=
  match pend with [] => [] | _ :: _ => [pend] end.

(** The groups of fragments behind the words of [run]: [pend] holds the
    fragments of the pending run. *)
Fixpoint groups (sp : str → bool) (ws : list str) (pend : list str)
    : list (list str) :=
  match ws with
  | [] => flush_group pend
  | w :: ws' =>
      match classify sp w with
      | SelfTerminating =>
          flush_group pend ++
          (if isspace (first_char w) then [] else [[w]]) ++ groups sp ws' []
      | Continuation => groups sp ws' (pend ++ [w])
      | Unrecognized => groups sp ws' pend
      end
  end.

(** The fragments that reach the output: neither dropped nor
    unrecognized. *)
Definition kept (w : str) : bool := negb (dropped w) && negb (is_unrecognized w).
(** ** Running the model *)

Example merge_oeffnen :
  MergeCharactersIntoWords
    [lit "o"; ["195"; "164"]%char; lit "ffnen"; lit " "; lit "a"; lit "b"; lit "!"; []; lit "c"]
  = Ok [lit "o" ++ ["195"; "164"]%char; lit "ffnen"; lit "ab"; lit "!"; lit "c"].
Proof. vm_compute. reflexivity. Qed.

Example convert_examples :
  ConvertStringToReal (lit "3.14") (Finite 0 0) = (true, Finite 314 2) ∧
  ConvertStringToReal (lit "  3.14  ") (Finite 0 0) = (true, Finite 314 2) ∧
  fst (ConvertStringToReal (lit "3.14 junk") (Finite 0 0)) = false ∧
  fst (ConvertStringToReal (lit "") (Finite 0 0)) = false ∧
  ConvertStringToReal (lit "inf") (Finite 0 0) = (true, Inf false) ∧
  ConvertStringToReal (lit "-INFINITY") (Finite 0 0) = (true, Inf true) ∧
  ConvertStringToReal (lit "NaN") (Finite 0 0) = (true, NaN false) ∧
  ConvertStringToReal (lit "1.#INF") (Finite 0 0) = (true, Inf false) ∧
  fst (ConvertStringToReal (lit "1 2") (Finite 0 0)) = false.
Proof. vm_compute. repeat split; reflexivity. Qed.

Example split_examples :
  SplitStringToFloats (lit "1,2,3") (lit ",") false [] =
    Ok (true, [Finite 1 0; Finite 2 0; Finite 3 0]) ∧
  SplitStringToFloats (lit "") (lit ",") false [Finite 7 0] = Ok (true, []) ∧
  SplitStringToFloats (lit "1,x,3") (lit ",") false [] =
    Ok (false, [Finite 1 0; Finite 0 0; Finite 0 0]) ∧
  SplitStringToVector (lit ",a,,b,") (lit ",") true = Ok [lit "a"; lit "b"] ∧
  SplitStringToVector (lit ",a,,b,") (lit ",") false =
    Ok [[]; lit "a"; []; lit "b"; []].
Proof. vm_compute. repeat split; reflexivity. Qed.


(** ** Loops and containers *)

Lemma while_done {S : Type} (cond : S → bool) body fuel (s : S) :
  cond s = false → while cond body fuel s = Ok s.
Proof. intros H. destruct fuel; simpl; rewrite H; reflexivity. Qed.

Lemma while_step {S : Type} (cond : S → bool) body fuel (s s' : S) :
  cond s = true → body s = Ok s' →
  while cond body (Datatypes.S fuel) s = while cond body fuel s'.
Proof. intros Hc Hb. simpl. rewrite Hc, Hb. reflexivity. Qed.

Lemma size_nonneg {A : Type} (l : list A) : 0 ≤ size l.
Proof. unfold size. lia. Qed.

Lemma size_cons {A : Type} (a : A) (l : list A) : size (a :: l) = 1 + size l.
Proof. unfold size. simpl. lia. Qed.

Lemma size_app {A : Type} (l1 l2 : list A) : size (l1 ++ l2) = size l1 + size l2.
Proof. unfold size. rewrite length_app. lia. Qed.

Lemma vec_at_lookup {A : Type} (v : list A) (k : nat) (a : A) :
  v !! k = Some a → vec_at v (Z.of_nat k) = Ok a.
Proof.
  intros H. unfold vec_at.
  destruct (Z.leb_spec 0 (Z.of_nat k)); [|lia].
  rewrite Nat2Z.id, H. reflexivity.
Qed.

Lemma vec_at_in_range {A : Type} (v : list A) (k : Z) :
  0 ≤ k < size v → ∃ a, v !! Z.to_nat k = Some a ∧ vec_at v k = Ok a.
Proof.
  intros Hk. unfold size in Hk.
  destruct (lookup_lt_is_Some_2 v (Z.to_nat k)) as [a Ha]; [lia|].
  exists a. split; [done|].
  rewrite <- (Z2Nat.id k) by lia. by apply vec_at_lookup.
Qed.

Lemma range_empty words a : range words a a = [].
Proof. unfold range. rewrite Z.sub_diag. reflexivity. Qed.

Lemma range_cons words a b w :
  0 ≤ a < b → words !! Z.to_nat a = Some w →
  range words a b = w :: range words (a + 1) b.
Proof.
  intros Hab Hw. unfold range.
  replace (Z.to_nat (b - a)) with (Datatypes.S (Z.to_nat (b - (a + 1)))) by lia.
  rewrite (drop_S _ _ _ Hw). simpl.
  replace (Z.to_nat (a + 1)) with (Datatypes.S (Z.to_nat a)) by lia.
  reflexivity.
Qed.

Lemma range_snoc words a b w :
  0 ≤ a ≤ b → words !! Z.to_nat b = Some w →
  range words a (b + 1) = range words a b ++ [w].
Proof.
  intros Hab Hw. unfold range.
  replace (Z.to_nat (b + 1 - a)) with (Datatypes.S (Z.to_nat (b - a))) by lia.
  apply take_S_r. rewrite lookup_drop.
  replace (Z.to_nat a + Z.to_nat (b - a))%nat with (Z.to_nat b) by lia.
  exact Hw.
Qed.

Lemma range_all words : range words 0 (size words) = words.
Proof.
  unfold range, size. simpl. rewrite Z.sub_0_r, Nat2Z.id.
  apply firstn_all.
Qed.

Lemma append_run_spec words q fuel p t :
  0 ≤ p ≤ q → q ≤ size words → (Z.to_nat (q - p) ≤ fuel)%nat →
  append_run words q fuel p t = Ok (q, t ++ concat (range words p q)).
Proof.
  unfold append_run. revert p t.
  induction fuel as [|fuel IH]; intros p t Hpq Hq Hfuel.
  - assert (p = q) as -> by lia.
    rewrite while_done by (simpl; lia).
    rewrite range_empty. simpl. by rewrite app_nil_r.
  - destruct (Z.eq_dec p q) as [->|Hne].
    + rewrite while_done by (simpl; lia).
      rewrite range_empty. simpl. by rewrite app_nil_r.
    + destruct (vec_at_in_range words p) as (w & Hw & Hat); [lia|].
      rewrite (while_step _ _ _ _ (p + 1, t ++ w)).
      * rewrite IH by lia.
        rewrite (range_cons words p q w) by (done || lia).
        simpl. by rewrite app_assoc.
      * simpl. lia.
      * simpl. rewrite Hat. reflexivity.
Qed.

Lemma char_at_0 (w : str) : char_at w 0 = Ok (first_char w).
Proof. destruct w; reflexivity. Qed.

Lemma classify_unrecognized sp w : classify sp w = Unrecognized → w = [].
Proof.
  destruct w as [|c0 [|c1 [|c2 w]]]; simpl; try done.
  - destruct (IsPunct c0 || isspace c0); done.
  - destruct (sp [c0; c1]); done.
Qed.

Lemma size_ge_3 {A : Type} (a b c : A) (l : list A) :
  (3 <=? size (a :: b :: c :: l)) = true.
Proof. rewrite !size_cons. pose proof (size_nonneg l). lia. Qed.

(** ** The loop of the merger against its pure reading *)

Section merger_facts.
Variable special : str → result bool.
Variable sp : str → bool.
Hypothesis special_sp : ∀ w, length w = 2%nat → special w = Ok (sp w).
Variable words : list str.

Lemma self_terminating_classify w :
  self_terminating special w =
  Ok (match classify sp w with SelfTerminating => true | _ => false end).
Proof.
  destruct w as [|c0 [|c1 [|c2 w]]].
  - reflexivity.
  - unfold self_terminating, orM, andM, notM, bind. simpl.
    destruct (IsPunct c0); simpl; [done|].
    destruct (isspace c0); done.
  - unfold self_terminating, orM, andM, notM, bind. simpl.
    rewrite special_sp by done.
    destruct (sp [c0; c1]); done.
  - unfold self_terminating, orM, andM, notM, bind.
    rewrite size_ge_3. reflexivity.
Qed.

Lemma continuation_classify w :
  classify sp w ≠ SelfTerminating →
  continuation special w =
  Ok (match classify sp w with Continuation => true | _ => false end).
Proof.
  destruct w as [|c0 [|c1 [|c2 w]]]; simpl; intros H.
  - reflexivity.
  - unfold continuation, orM, andM, bind. simpl.
    destruct (IsPunct c0 || isspace c0); done.
  - unfold continuation, orM, andM, bind. simpl.
    rewrite special_sp by done.
    destruct (sp [c0; c1]); done.
  - done.
Qed.

Lemma merge_finish_spec st :
  wf_state st → m_i st ≤ size words →
  merge_finish words st = Ok (m_ans st ++ flush (pending words st)).
Proof.
  intros [Hi Hp] Hn. unfold merge_finish, pending.
  destruct (Z.eqb_spec (m_prev st) (-1)) as [E|E]; simpl.
  - by rewrite app_nil_r.
  - rewrite append_run_spec; [reflexivity|lia|lia|].
    unfold size in Hn. lia.
Qed.

Lemma merge_body_spec st w :
  wf_state st → m_i st < size words →
  words !! Z.to_nat (m_i st) = Some w →
  merge_body special words st =
  Ok (match classify sp w with
      | SelfTerminating =>
          MergeState (m_i st + 1) (-1)
            (m_ans st ++ flush (pending words st) ++ emit w)
      | Continuation =>
          MergeState (m_i st + 1)
            (if m_prev st =? -1 then m_i st else m_prev st) (m_ans st)
      | Unrecognized => MergeState (m_i st + 1) (m_prev st) (m_ans st)
      end).
Proof.
  intros [Hi Hp] Hn Hw. unfold merge_body.
  rewrite <- (Z2Nat.id (m_i st)) at 1 by lia.
  rewrite (vec_at_lookup _ _ _ Hw). simpl.
  rewrite self_terminating_classify. simpl.
  destruct (classify sp w) eqn:Hk.
  - unfold pending, emit.
    destruct (Z.eqb_spec (m_prev st) (-1)) as [E|E]; simpl.
    + rewrite char_at_0. simpl. rewrite E.
      destruct (isspace (first_char w)); simpl; by rewrite ?app_nil_r.
    + rewrite append_run_spec; [|lia|lia|unfold size in Hn; lia].
      simpl. rewrite char_at_0. simpl.
      destruct (isspace (first_char w)); simpl.
      * reflexivity.
      * by rewrite <- app_assoc.
  - rewrite continuation_classify by congruence. rewrite Hk. reflexivity.
  - rewrite continuation_classify by congruence. rewrite Hk. reflexivity.
Qed.

Lemma merge_loop_spec n fuel st :
  n ≤ size words → wf_state st → m_i st ≤ n →
  (Z.to_nat (n - m_i st) ≤ fuel)%nat →
  ∃ st', while (λ st, m_i st <? n) (merge_body special words) fuel st = Ok st' ∧
         m_i st' = n ∧ wf_state st' ∧
         m_ans st' ++ flush (pending words st') =
         m_ans st ++ run sp (range words (m_i st) n) (pending words st).
Proof.
  intros Hn. revert st.
  induction fuel as [|fuel IH]; intros st Hwf Hi Hfuel.
  - exists st. assert (m_i st = n) as E by lia.
    rewrite while_done by (apply Z.ltb_ge; lia).
    rewrite E, range_empty. done.
  - destruct (Z.eq_dec (m_i st) n) as [E|E].
    { exists st. rewrite while_done by (apply Z.ltb_ge; lia).
      rewrite E, range_empty. done. }
    destruct (vec_at_in_range words (m_i st)) as (w & Hw & _);
      [destruct Hwf; lia|].
    assert (m_i st < size words) as Hlt by lia.
    pose proof (merge_body_spec st w Hwf Hlt Hw) as Hbody.
    assert ((m_i st <? n) = true) as Hc by lia.
    rewrite (while_step (λ st, m_i st <? n) _ _ st _ Hc Hbody).
    rewrite (range_cons words (m_i st) n w) by (destruct Hwf; done || lia).
    destruct Hwf as [Hi0 Hp]. simpl run.
    destruct (classify sp w) eqn:Hk.
    + edestruct (IH (MergeState (m_i st + 1) (-1)
                 (m_ans st ++ flush (pending words st) ++ emit w)))
        as (st' & Hrun & Hi' & Hwf' & Hout);
        [split; simpl; [lia|by left]|simpl; lia|simpl; lia|].
      exists st'. split; [exact Hrun|]. split; [done|]. split; [done|].
      rewrite Hout. simpl. unfold pending at 1. simpl.
      by rewrite <- !app_assoc.
    + edestruct (IH (MergeState (m_i st + 1)
                 (if m_prev st =? -1 then m_i st else m_prev st) (m_ans st)))
        as (st' & Hrun & Hi' & Hwf' & Hout).
      { split; simpl; [lia|]. right.
        destruct (Z.eqb_spec (m_prev st) (-1)); lia. }
      { simpl; lia. } { simpl; lia. }
      exists st'. split; [exact Hrun|]. split; [done|]. split; [done|].
      rewrite Hout. simpl. f_equal. f_equal.
      unfold pending. simpl.
      destruct (Z.eqb_spec (m_prev st) (-1)) as [E1|E1].
      * destruct (Z.eqb_spec (m_i st) (-1)); [lia|].
        rewrite (range_cons words (m_i st) (m_i st + 1) w) by (done || lia).
        rewrite range_empty. simpl. by rewrite app_nil_r.
      * destruct (Z.eqb_spec (m_prev st) (-1)); [lia|].
        rewrite (range_snoc words (m_prev st) (m_i st) w) by (done || lia).
        rewrite concat_app. simpl. by rewrite app_nil_r.
    + edestruct (IH (MergeState (m_i st + 1) (m_prev st) (m_ans st)))
        as (st' & Hrun & Hi' & Hwf' & Hout).
      { split; simpl; [lia|]. destruct Hp; [by left|right; lia]. }
      { simpl; lia. } { simpl; lia. }
      exists st'. split; [exact Hrun|]. split; [done|]. split; [done|].
      rewrite Hout. simpl. f_equal. f_equal.
      unfold pending. simpl.
      destruct (Z.eqb_spec (m_prev st) (-1)) as [E1|E1]; [done|].
      rewrite (range_snoc words (m_prev st) (m_i st) w) by (done || lia).
      rewrite (classify_unrecognized _ _ Hk).
      rewrite concat_app. simpl. by rewrite app_nil_r.
Qed.
End merger_facts.

(** ** Totality of the special tests *)

Lemma two_byte_test_total (P : ascii → bool) (word : str) :
  ∃ b, (b0 <- orM (Ok (negb (size word =? 2)))
               (c0 <- char_at word 0;; Ok (negb (byte c0 =? 0xc3)));;
        if b0 then Ok false
        else c0 <- char_at word 1;; if P c0 then Ok true else Ok false)
       = Ok b ∧ (b = true → ∃ c1, word = [ascii_of_N 195; c1]).
Proof.
  destruct word as [|c0 [|c1 [|c2 w]]]; try (eexists; split; [reflexivity|done]).
  - unfold orM, bind. simpl.
    destruct (Z.eqb_spec (byte c0) 195) as [E|E]; simpl.
    + destruct (P c1); eexists; (split; [reflexivity|]); [|done].
      intros _. exists c1. f_equal. unfold byte in E.
      rewrite <- (ascii_N_embedding c0).
      replace (N_of_ascii c0) with 195%N by lia. reflexivity.
    + eexists; split; [reflexivity|done].
  - unfold orM, bind.
    destruct (Z.eqb_spec (size (c0 :: c1 :: c2 :: w)) 2) as [E|E].
    + rewrite !size_cons in E. pose proof (size_nonneg w). lia.
    + simpl. eexists; split; [reflexivity|done].
Qed.

Lemma IsGermanUmlaut_total w :
  ∃ b, IsGermanUmlaut w = Ok b ∧ (b = true → ∃ c1, w = [ascii_of_N 195; c1]).
Proof. apply two_byte_test_total. Qed.

Lemma IsSpanishDiacritic_total w :
  ∃ b, IsSpanishDiacritic w = Ok b ∧ (b = true → ∃ c1, w = [ascii_of_N 195; c1]).
Proof. apply two_byte_test_total. Qed.

Lemma IsFrenchDiacritic_total w :
  ∃ b, IsFrenchDiacritic w = Ok b ∧ (b = true → ∃ c1, w = [ascii_of_N 195; c1]).
Proof. apply two_byte_test_total. Qed.

Lemma IsDiacritic_total w :
  IsDiacritic w = Ok (is_diacritic w) ∧
  (is_diacritic w = true → ∃ c1, w = [ascii_of_N 195; c1]).
Proof.
  unfold is_diacritic, IsDiacritic.
  destruct (IsGermanUmlaut_total w) as (b1 & -> & H1).
  destruct (IsSpanishDiacritic_total w) as (b2 & -> & H2).
  destruct (IsFrenchDiacritic_total w) as (b3 & -> & H3).
  destruct b1, b2, b3; simpl; split; auto; done.
Qed.

Lemma IsSpecial_total w : ∃ b, IsSpecial w = Ok b.
Proof.
  unfold IsSpecial. destruct (IsDiacritic_total w) as [-> _]. simpl.
  destruct w as [|c0 [|c1 [|c2 [|c3 w]]]]; try (eexists; reflexivity).
  - simpl. destruct (_ && _); eexists; reflexivity.
  - destruct (Z.eqb_spec (size (c0 :: c1 :: c2 :: c3 :: w)) 3) as [E|E].
    + rewrite !size_cons in E. pose proof (size_nonneg w). lia.
    + eexists; reflexivity.
Qed.

Lemma IsSpecial_is_special w : IsSpecial w = Ok (is_special w).
Proof.
  unfold is_special. destruct (IsSpecial_total w) as [b ->]. reflexivity.
Qed.

Lemma IsSpecial_two_bytes w :
  length w = 2%nat → IsSpecial w = IsDiacritic w.
Proof.
  intros Hw. unfold IsSpecial.
  destruct (IsDiacritic_total w) as [-> _]. simpl.
  destruct w as [|c0 [|c1 [|c2 w]]]; try discriminate. simpl.
  by rewrite orb_false_r.
Qed.

Lemma is_special_two_bytes w :
  length w = 2%nat → is_special w = is_diacritic w.
Proof.
  intros Hw. unfold is_special, is_diacritic.
  by rewrite IsSpecial_two_bytes.
Qed.

Lemma IsSpecial_sp w : length w = 2%nat → IsSpecial w = Ok (is_special w).
Proof. intros _. apply IsSpecial_is_special. Qed.

Lemma IsDiacritic_sp w : length w = 2%nat → IsDiacritic w = Ok (is_special w).
Proof.
  intros Hw. rewrite is_special_two_bytes by done. apply IsDiacritic_total.
Qed.

Lemma is_special_not_space w :
  length w = 2%nat → is_special w = true → isspace (first_char w) = false.
Proof.
  intros Hw Hs. rewrite is_special_two_bytes in Hs by done.
  destruct (IsDiacritic_total w) as [_ H].
  destruct (H Hs) as [c1 ->]. reflexivity.
Qed.

(** ** Arithmetic of the index type *)

Lemma to_int32_small z : 0 ≤ z < 2 ^ 31 → to_int32 z = z.
Proof. intros H. unfold to_int32. rewrite Z.mod_small; lia. Qed.

Lemma to_int32_le z : 0 ≤ z → to_int32 z ≤ z.
Proof.
  intros H. unfold to_int32.
  pose proof (Z.mod_le (z + 2 ^ 31) (2 ^ 32)). lia.
Qed.

Lemma to_int32_lt z : to_int32 z < 2 ^ 31.
Proof.
  unfold to_int32. pose proof (Z.mod_pos_bound (z + 2 ^ 31) (2 ^ 32)). lia.
Qed.

(** ** The merger as a whole *)

(** The fragments that the loop scans: all of them unless the cast of the
    size to [int32_t] wraps. *)
Lemma merge_with_run special sp words :
  (∀ w, length w = 2%nat → special w = Ok (sp w)) →
  merge_with special words =
  Ok (run sp (range words 0 (to_int32 (size words))) None).
Proof.
  intros Hsp. unfold merge_with, merge_loop.
  set (n := to_int32 (size words)).
  assert (n ≤ size words) as Hn
    by (apply to_int32_le, size_nonneg).
  destruct (Z.le_gt_cases n 0) as [Hle|Hgt].
  - rewrite while_done by (simpl; lia). simpl.
    unfold range. replace (Z.to_nat (n - 0)) with 0%nat by lia. reflexivity.
  - destruct (merge_loop_spec special sp Hsp words n (length words)
                (MergeState 0 (-1) [])) as (st' & -> & Hi & Hwf & Hout);
      [done|split; simpl; [lia|by left]|simpl; lia|unfold size in Hn; simpl; lia|].
    simpl. rewrite merge_finish_spec by (done || lia).
    rewrite Hout. reflexivity.
Qed.

Lemma merge_run words :
  MergeCharactersIntoWords words =
  Ok (run is_special (range words 0 (to_int32 (size words))) None).
Proof. apply merge_with_run, IsSpecial_sp. Qed.

Lemma merge_run_small words :
  size words < 2 ^ 31 →
  MergeCharactersIntoWords words = Ok (run is_special words None).
Proof.
  intros H. rewrite merge_run.
  rewrite to_int32_small by (pose proof (size_nonneg words); lia).
  by rewrite range_all.
Qed.

(** ** Properties of the pure reading *)

Lemma first_char_app (t w : str) : t ≠ [] → first_char (t ++ w) = first_char t.
Proof. destruct t; done. Qed.

Lemma classify_self_nonempty sp w : classify sp w = SelfTerminating → w ≠ [].
Proof. destruct w; done. Qed.

Lemma classify_continuation sp w :
  classify sp w = Continuation →
  (∃ c, w = [c] ∧ IsPunct c = false ∧ isspace c = false) ∨
  (length w = 2%nat ∧ sp w = true).
Proof.
  destruct w as [|c0 [|c1 [|c2 w]]]; simpl; try done.
  - destruct (IsPunct c0) eqn:E1, (isspace c0) eqn:E2; simpl; try done.
    intros _. left. eauto.
  - destruct (sp [c0; c1]) eqn:E; try done. intros _. by right.
Qed.

Lemma run_cons sp w ws pend :
  run sp (w :: ws) pend =
  match classify sp w with
  | SelfTerminating => flush pend ++ emit w ++ run sp ws None
  | Continuation => run sp ws (Some (default [] pend ++ w))
  | Unrecognized => run sp ws pend
  end.
Proof. reflexivity. Qed.

Section run_facts.
Variable sp : str → bool.
Hypothesis sp_not_space :
  ∀ w, length w = 2%nat → sp w = true → isspace (first_char w) = false.

Lemma continuation_word_ok w : classify sp w = Continuation → word_ok w.
Proof.
  intros H. destruct (classify_continuation _ _ H) as [(c & -> & _ & Hs)|[Hl Hs]].
  - split; done.
  - split; [by destruct w|by apply sp_not_space].
Qed.

Lemma word_ok_app t w : word_ok t → word_ok (t ++ w).
Proof.
  intros [Hne Hs]. split.
  - by destruct t.
  - by rewrite first_char_app.
Qed.

Lemma run_word_ok ws pend :
  (∀ t, pend = Some t → word_ok t) → Forall word_ok (run sp ws pend).
Proof.
  revert pend. induction ws as [|w ws IH]; intros pend Hp; simpl.
  - destruct pend; simpl; [|constructor].
    constructor; [by apply Hp|constructor].
  - destruct (classify sp w) eqn:Hk.
    + apply Forall_app. split.
      { destruct pend; simpl; [|constructor].
        constructor; [by apply Hp|constructor]. }
      apply Forall_app. split; [|by apply IH].
      unfold emit. destruct (isspace (first_char w)) eqn:E; [constructor|].
      constructor; [|constructor].
      split; [by eapply classify_self_nonempty|done].
    + apply IH. intros t [= <-].
      destruct pend as [t0|]; simpl.
      * apply word_ok_app. by apply Hp.
      * by apply continuation_word_ok.
    + by apply IH.
Qed.

Lemma run_length ws pend :
  (length (run sp ws pend) ≤ length ws + length (flush pend))%nat.
Proof.
  revert pend. induction ws as [|w ws IH]; intros pend; simpl; [lia|].
  destruct (classify sp w).
  - rewrite !length_app. specialize (IH None). simpl in IH.
    unfold emit. destruct (isspace (first_char w)); simpl; lia.
  - specialize (IH (Some (default [] pend ++ w))). simpl in IH.
    destruct pend; simpl in *; lia.
  - specialize (IH pend). lia.
Qed.

Lemma run_fixed ws :
  Forall (λ w, 3 ≤ size w ∧ isspace (first_char w) = false) ws →
  run sp ws None = ws.
Proof.
  induction 1 as [|w ws [Hw Hs] _ IH]; simpl; [done|].
  destruct w as [|c0 [|c1 [|c2 w]]]; rewrite ?size_cons in Hw;
    try (unfold size in Hw; simpl in Hw; lia).
  change (classify sp (c0 :: c1 :: c2 :: w)) with SelfTerminating.
  unfold emit. rewrite Hs. simpl. by rewrite IH.
Qed.

Lemma run_skips_empty ws pend :
  run sp ws pend = run sp (List.filter (λ w, negb (bool_decide (w = []))) ws) pend.
Proof.
  revert pend. induction ws as [|w ws IH]; intros pend; [done|].
  destruct w as [|c w]; [apply IH|].
  simpl List.filter. rewrite !run_cons.
  destruct (classify sp (c :: w)); by rewrite IH.
Qed.

Lemma run_concat ws pend :
  concat (run sp ws pend) =
  default [] pend ++
  concat (List.filter
            (λ w, negb (match classify sp w with SelfTerminating => true | _ => false end
                        && isspace (first_char w))) ws).
Proof.
  revert pend. induction ws as [|w ws IH]; intros pend; simpl.
  - destruct pend; simpl; by rewrite ?app_nil_r.
  - destruct (classify sp w) eqn:Hk; simpl.
    + rewrite !concat_app, IH. simpl. unfold emit.
      destruct (isspace (first_char w)); destruct pend; simpl;
        by rewrite ?app_nil_r.
    + rewrite IH. simpl. by rewrite <- app_assoc.
    + rewrite IH. rewrite (classify_unrecognized _ _ Hk). reflexivity.
Qed.
End run_facts.

Lemma total_bytes_filter (p : str → bool) (ws : list str) :
  total_bytes ws =
  total_bytes (List.filter p ws) + total_bytes (List.filter (λ w, negb (p w)) ws).
Proof.
  unfold total_bytes.
  induction ws as [|w ws IH]; simpl; [done|].
  destruct (p w); simpl; rewrite !size_app in *; lia.
Qed.

Lemma dropped_classify w :
  dropped w =
  match classify is_special w with SelfTerminating => true | _ => false end
  && isspace (first_char w).
Proof.
  unfold dropped.
  rewrite (self_terminating_classify IsSpecial is_special IsSpecial_sp).
  reflexivity.
Qed.

Lemma unrecognized_empty w : unrecognized w → w = [].
Proof.
  intros [H1 H2].
  rewrite (self_terminating_classify IsSpecial is_special IsSpecial_sp) in H1.
  destruct (classify is_special w) eqn:Hk; [done| |by eapply classify_unrecognized].
  rewrite (continuation_classify IsSpecial is_special IsSpecial_sp) in H2
    by congruence.
  rewrite Hk in H2. done.
Qed.

Lemma empty_unrecognized : unrecognized [].
Proof. split; reflexivity. Qed.

(** ** The rules of the merger in the words of the specification *)

Lemma self_terminating_spec w :
  self_terminating IsSpecial w = Ok (spec_self_terminating w).
Proof.
  unfold spec_self_terminating.
  destruct w as [|c0 [|c1 [|c2 w]]].
  - reflexivity.
  - unfold self_terminating, orM, andM, notM, bind, IsPunct.
    change (first_char [c0]) with c0. simpl.
    destruct (Ascii.eqb c0 "'"), (ispunct c0), (isspace c0); reflexivity.
  - unfold self_terminating, orM, andM, notM, bind. simpl.
    rewrite IsSpecial_two_bytes by done.
    destruct (IsDiacritic_total [c0; c1]) as [-> _].
    by destruct (is_diacritic [c0; c1]).
  - unfold self_terminating, orM, andM, notM, bind.
    by rewrite size_ge_3.
Qed.

Lemma continuation_spec w :
  spec_self_terminating w = false →
  continuation IsSpecial w = Ok (spec_continuation w).
Proof.
  unfold spec_continuation. intros Hs. rewrite Hs.
  destruct w as [|c0 [|c1 [|c2 w]]].
  - reflexivity.
  - reflexivity.
  - unfold continuation, orM, andM, bind. simpl.
    rewrite IsSpecial_two_bytes by done.
    by destruct (IsDiacritic_total [c0; c1]) as [-> _].
  - unfold spec_self_terminating in Hs. by rewrite size_ge_3 in Hs.
Qed.

Lemma classify_self_terminating w :
  classify is_special w = SelfTerminating ↔ spec_self_terminating w = true.
Proof.
  pose proof (self_terminating_spec w) as H.
  rewrite (self_terminating_classify IsSpecial is_special IsSpecial_sp) in H.
  injection H as H. rewrite <- H.
  destruct (classify is_special w); split; done.
Qed.

Lemma is_unrecognized_empty w : is_unrecognized w = bool_decide (w = []).
Proof.
  unfold is_unrecognized.
  rewrite (self_terminating_classify IsSpecial is_special IsSpecial_sp).
  destruct (classify is_special w) eqn:Hk; simpl.
  - apply classify_self_nonempty in Hk. by rewrite bool_decide_eq_false_2.
  - rewrite (continuation_classify IsSpecial is_special IsSpecial_sp)
      by congruence.
    rewrite Hk. simpl.
    destruct w; [done|]. by rewrite bool_decide_eq_false_2.
  - rewrite (continuation_classify IsSpecial is_special IsSpecial_sp)
      by congruence.
    rewrite Hk. simpl.
    apply classify_unrecognized in Hk. by rewrite bool_decide_eq_true_2.
Qed.

Lemma range_length words a b : (length (range words a b) ≤ Z.to_nat (b - a))%nat.
Proof. unfold range. rewrite length_take. lia. Qed.

(** ** Claims about [MergeCharactersIntoWords] *)

(** C2, as amended: a fragment [w] that is self-terminating by the rule of
    the specification (at least three bytes; two bytes that are not a
    diacritic pair; one byte of white space or of punctuation other than
    the apostrophe) is self-terminating for the code, and the step on it
    flushes the pending run, then emits [w] as a word of its own unless the
    FIRST byte of [w] is white space, in which case nothing is emitted for
    [w]; no run is pending afterwards. *)
Theorem self_terminating_step words st w :
  wf_state st → m_i st < size words →
  words !! Z.to_nat (m_i st) = Some w →
  spec_self_terminating w = true →
  self_terminating IsSpecial w = Ok true ∧
  merge_body IsSpecial words st =
  Ok (MergeState (m_i st + 1) (-1)
        (m_ans st ++ flush (pending words st) ++
         (if isspace (first_char w) then [] else [w]))).
Proof.
  intros Hwf Hi Hw Hs. split.
  - by rewrite self_terminating_spec, Hs.
  - rewrite (merge_body_spec IsSpecial is_special IsSpecial_sp words st w)
      by done.
    apply classify_self_terminating in Hs. rewrite Hs. reflexivity.
Qed.

Lemma self_terminating_step_witness :
  merge_body IsSpecial [lit "a"; lit "b"; lit "!"] (MergeState 2 0 []) =
  Ok (MergeState 3 (-1) [lit "ab"; lit "!"]).
Proof.
  apply (self_terminating_step [lit "a"; lit "b"; lit "!"]
           (MergeState 2 0 []) (lit "!")).
  - split; simpl; lia.
  - vm_compute. reflexivity.
  - reflexivity.
  - reflexivity.
Defined.

(** C2, as stated, fails on a three-byte fragment that starts with a space:
    it is self-terminating and not pure white space, and nothing is
    emitted for it. *)
Lemma emits_unless_pure_whitespace_fails :
  ¬ emits_unless_pure_whitespace [lit " ab"] (MergeState 0 (-1) []).
Proof.
  intros H. specialize (H (lit " ab") eq_refl eq_refl).
  vm_compute in H. discriminate H.
Qed.

(** C3, as amended: for a sequence of fewer than 2^31 fragments the bytes
    of the output words, in order, are the bytes of the input fragments
    that are not dropped, so the byte count of the output is the byte count
    of the input minus that of the dropped fragments; the dropped fragments
    are the self-terminating ones whose first byte is white space. *)
Theorem merge_conserves_bytes words :
  size words < 2 ^ 31 →
  ∃ out, MergeCharactersIntoWords words = Ok out ∧
         concat out = concat (List.filter (λ w, negb (dropped w)) words) ∧
         total_bytes out =
         total_bytes words - total_bytes (List.filter dropped words).
Proof.
  intros Hsize. eexists. split; [by apply merge_run_small|].
  assert (concat (run is_special words None) =
          concat (List.filter (λ w, negb (dropped w)) words)) as Hcat.
  { rewrite run_concat. simpl.
    f_equal. apply List.filter_ext. intros w. by rewrite dropped_classify. }
  split; [exact Hcat|].
  rewrite (total_bytes_filter dropped words).
  unfold total_bytes at 1. rewrite Hcat. unfold total_bytes. lia.
Qed.

Lemma merge_conserves_bytes_witness :
  ∃ out, MergeCharactersIntoWords
           [lit "o"; ["195"; "164"]%char; lit "ffnen"; lit " "; lit " ab"; lit "!"]
         = Ok out ∧
         concat out = lit "o" ++ ["195"; "164"]%char ++ lit "ffnen!" ∧
         total_bytes out = 13 - 4.
Proof.
  apply (merge_conserves_bytes
           [lit "o"; ["195"; "164"]%char; lit "ffnen"; lit " "; lit " ab"; lit "!"]).
  vm_compute. reflexivity.
Defined.

(** C3, as stated, fails on the single fragment [" ab"]: its three bytes
    are missing from the output although it is not a white-space
    fragment. *)
Lemma conserves_bytes_up_to_whitespace_fails :
  ¬ conserves_bytes_up_to_whitespace [lit " ab"].
Proof.
  intros H. specialize (H [] eq_refl). vm_compute in H. discriminate H.
Qed.

(** C4: on a self-terminating fragment met while the run [[prev, i)] is
    pending, the step first pushes the concatenation, in order, of the
    fragments of the run as one word and then treats the fragment by its
    own rule; after the loop a run that is still pending is pushed as one
    concatenated word; and a run of a single fragment is that fragment,
    unchanged. *)
Theorem pending_run_flush words st :
  wf_state st → m_prev st ≠ -1 → m_i st ≤ size words →
  (∀ w, words !! Z.to_nat (m_i st) = Some w →
        self_terminating IsSpecial w = Ok true →
        merge_body IsSpecial words st =
        Ok (MergeState (m_i st + 1) (-1)
              (m_ans st ++ [concat (range words (m_prev st) (m_i st))] ++ emit w))) ∧
  merge_finish words st =
    Ok (m_ans st ++ [concat (range words (m_prev st) (m_i st))]) ∧
  (∀ w, m_i st = m_prev st + 1 → words !! Z.to_nat (m_prev st) = Some w →
        concat (range words (m_prev st) (m_i st)) = w).
Proof.
  intros Hwf Hprev Hi.
  assert (pending words st = Some (concat (range words (m_prev st) (m_i st))))
    as Hpend.
  { unfold pending. by destruct (Z.eqb_spec (m_prev st) (-1)). }
  split; [|split].
  - intros w Hw Hself.
    assert (m_i st < size words) as Hlt.
    { apply lookup_lt_Some in Hw. destruct Hwf. unfold size. lia. }
    rewrite (merge_body_spec IsSpecial is_special IsSpecial_sp words st w)
      by done.
    rewrite (self_terminating_classify IsSpecial is_special IsSpecial_sp)
      in Hself.
    destruct (classify is_special w); try done.
    by rewrite Hpend.
  - rewrite (merge_finish_spec words st) by done. by rewrite Hpend.
  - intros w -> Hw.
    rewrite (range_cons words (m_prev st) (m_prev st + 1) w)
      by (done || destruct Hwf; lia).
    rewrite range_empty. simpl. by rewrite app_nil_r.
Qed.

Lemma pending_run_flush_witness :
  merge_body IsSpecial [lit "d"; lit "a"; lit "!"] (MergeState 2 1 [lit "x"]) =
    Ok (MergeState 3 (-1) [lit "x"; lit "a"; lit "!"]) ∧
  merge_finish [lit "d"; lit "a"; lit "!"] (MergeState 2 1 [lit "x"]) =
    Ok [lit "x"; lit "a"] ∧
  concat (range [lit "d"; lit "a"; lit "!"] 1 2) = lit "a".
Proof.
  destruct (pending_run_flush [lit "d"; lit "a"; lit "!"]
              (MergeState 2 1 [lit "x"])) as (H1 & H2 & H3).
  - split; simpl; lia.
  - simpl. lia.
  - vm_compute. discriminate.
  - split; [exact (H1 (lit "!") eq_refl eq_refl)|].
    split; [exact H2|].
    exact (H3 (lit "a") eq_refl eq_refl).
Defined.

(** C7: a three-byte fragment is self-terminating whatever the special
    test answers, the right single quotation mark E2 80 99 included, for
    which [IsSpecial] does answer true; the step on a three-byte fragment
    leaves no run pending; and the merger run with the two-byte diacritic
    test alone, without the three-byte case of [IsSpecial], returns the
    same result on every input. *)
Theorem three_bytes_self_terminate words st w :
  wf_state st → m_i st < size words →
  words !! Z.to_nat (m_i st) = Some w → size w = 3 →
  (∀ special, self_terminating special w = Ok true) ∧
  continuation IsSpecial w = Ok false ∧
  merge_body IsSpecial words st =
    Ok (MergeState (m_i st + 1) (-1)
          (m_ans st ++ flush (pending words st) ++ emit w)) ∧
  IsSpecial ["226"; "128"; "153"]%char = Ok true ∧
  (∀ ws, merge_with IsDiacritic ws = MergeCharactersIntoWords ws).
Proof.
  intros Hwf Hi Hw Hsz.
  assert (∃ c0 c1 c2, w = [c0; c1; c2]) as (c0 & c1 & c2 & ->).
  { destruct w as [|c0 [|c1 [|c2 [|c3 w]]]];
      rewrite ?size_cons in Hsz; unfold size in Hsz; simpl in Hsz;
      try lia; eauto. }
  split; [|split; [|split; [|split]]].
  - intros special. unfold self_terminating, orM, andM, notM, bind.
    by rewrite size_ge_3.
  - reflexivity.
  - rewrite (merge_body_spec IsSpecial is_special IsSpecial_sp words st
               [c0; c1; c2]) by done.
    reflexivity.
  - reflexivity.
  - intros ws. unfold MergeCharactersIntoWords.
    rewrite (merge_with_run IsDiacritic is_special ws IsDiacritic_sp).
    by rewrite (merge_with_run IsSpecial is_special ws IsSpecial_sp).
Qed.

Lemma three_bytes_self_terminate_witness :
  merge_body IsSpecial [lit "d"; ["226"; "128"; "153"]%char; lit "un"]
    (MergeState 1 0 []) =
  Ok (MergeState 2 (-1) [lit "d"; ["226"; "128"; "153"]%char]).
Proof.
  destruct (three_bytes_self_terminate
              [lit "d"; ["226"; "128"; "153"]%char; lit "un"]
              (MergeState 1 0 []) ["226"; "128"; "153"]%char)
    as (_ & _ & H & _).
  - split; simpl; lia.
  - vm_compute. reflexivity.
  - reflexivity.
  - reflexivity.
  - exact H.
Defined.

(** A sequence of words of at least three bytes that do not start with
    white space is returned unchanged. *)
Lemma merge_fixed ws :
  size ws < 2 ^ 31 →
  Forall (λ w, 3 ≤ size w ∧ isspace (first_char w) = false) ws →
  MergeCharactersIntoWords ws = Ok ws.
Proof.
  intros Hsize Hws. rewrite merge_run_small by done.
  by rewrite run_fixed.
Qed.

Lemma merge_output_ok words out :
  MergeCharactersIntoWords words = Ok out →
  Forall word_ok out ∧ size out < 2 ^ 31.
Proof.
  rewrite merge_run. intros [= <-]. split.
  - apply run_word_ok; [apply is_special_not_space|done].
  - pose proof (run_length is_special
                  (range words 0 (to_int32 (size words))) None) as Hlen.
    pose proof (range_length words 0 (to_int32 (size words))) as Hr.
    pose proof (to_int32_lt (size words)).
    simpl in Hlen. unfold size in *. lia.
Qed.

(** C8: the merger is idempotent on its own results: when every word of a
    result has at least three bytes, merging the result again returns it
    unchanged. *)
Theorem merge_idempotent words out :
  MergeCharactersIntoWords words = Ok out →
  Forall (λ w, 3 ≤ size w) out →
  MergeCharactersIntoWords out = Ok out.
Proof.
  intros Hout Hlen.
  destruct (merge_output_ok words out Hout) as [Hok Hsize].
  apply merge_fixed; [done|].
  rewrite Forall_forall in *. intros w Hw. split; [by apply Hlen|].
  by apply Hok.
Qed.

Lemma merge_idempotent_witness :
  MergeCharactersIntoWords [lit "o" ++ ["195"; "164"]%char ++ lit "x"; lit "ffnen"] =
  Ok [lit "o" ++ ["195"; "164"]%char ++ lit "x"; lit "ffnen"].
Proof.
  apply (merge_idempotent
           [lit "o"; ["195"; "164"]%char; lit "x"; lit " "; lit "ffnen"]).
  - vm_compute. reflexivity.
  - repeat constructor; vm_compute; discriminate.
Defined.

(** C9: an unrecognized fragment (the empty string is one, and the only
    one) does not make the merger leave a string or the vector: the call
    returns a result for every input; no word of the result is an
    unrecognized fragment; the step on an unrecognized fragment only
    advances the scan index; and, for fewer than 2^31 fragments, the result
    is that of the input without its unrecognized fragments. *)
Theorem unrecognized_skipped words :
  unrecognized [] ∧
  (∀ w, unrecognized w → w = []) ∧
  (∃ out, MergeCharactersIntoWords words = Ok out ∧
          ∀ w, unrecognized w → w ∉ out) ∧
  (∀ st w, vec_at words (m_i st) = Ok w → unrecognized w →
           merge_body IsSpecial words st =
           Ok (MergeState (m_i st + 1) (m_prev st) (m_ans st))) ∧
  (size words < 2 ^ 31 →
   MergeCharactersIntoWords words =
   MergeCharactersIntoWords (List.filter (λ w, negb (is_unrecognized w)) words)).
Proof.
  split; [apply empty_unrecognized|].
  split; [apply unrecognized_empty|].
  split; [|split].
  - eexists. split; [apply merge_run|].
    intros w Hw Hin. apply unrecognized_empty in Hw as ->.
    pose proof (run_word_ok is_special is_special_not_space
                  (range words 0 (to_int32 (size words))) None) as Hok.
    rewrite Forall_forall in Hok.
    destruct (Hok ltac:(done) [] Hin) as [Hne _]. done.
  - intros st w Hw [H1 H2]. unfold merge_body.
    rewrite Hw. simpl. rewrite H1. simpl. rewrite H2. reflexivity.
  - intros Hsize. rewrite merge_run_small by done.
    rewrite run_skips_empty.
    rewrite merge_run_small.
    + f_equal. f_equal. apply List.filter_ext. intros w.
      by rewrite is_unrecognized_empty.
    + pose proof (List.filter_length_le (λ w, negb (is_unrecognized w)) words).
      unfold size in *. lia.
Qed.

Lemma unrecognized_skipped_witness :
  MergeCharactersIntoWords [lit "a"; []; lit "b"; lit "!"; []] =
  MergeCharactersIntoWords [lit "a"; lit "b"; lit "!"].
Proof.
  destruct (unrecognized_skipped [lit "a"; []; lit "b"; lit "!"; []])
    as (_ & _ & _ & _ & H).
  apply H. vm_compute. reflexivity.
Defined.

(** C10: the call returns a result for every input, and every word of the
    result has at least one byte. *)
Theorem merge_words_nonempty words :
  ∃ out, MergeCharactersIntoWords words = Ok out ∧
         Forall (λ w, 1 ≤ size w) out.
Proof.
  eexists. split; [apply merge_run|].
  eapply Forall_impl.
  - apply (run_word_ok is_special is_special_not_space); done.
  - intros w [Hne _]. destruct w; [done|].
    rewrite size_cons. pose proof (size_nonneg w). lia.
Qed.

(** ** Scanning lemmas *)

Lemma take_while_length_le {A : Type} (p : A → bool) l :
  (length (take_while p l) ≤ length l)%nat.
Proof. induction l as [|a l IH]; simpl; [lia|]. destruct (p a); simpl; lia. Qed.

Lemma take_while_all {A : Type} (p : A → bool) l :
  forallb p l = true → take_while p l = l.
Proof.
  induction l as [|a l IH]; simpl; [done|].
  destruct (p a); simpl; [|done]. intros H. by rewrite IH.
Qed.

Lemma take_while_split {A : Type} (p : A → bool) l :
  forallb p l = false →
  ∃ a l', l = take_while p l ++ a :: l' ∧ p a = false.
Proof.
  induction l as [|a l IH]; simpl; [done|].
  destruct (p a) eqn:E; simpl.
  - intros H. destruct (IH H) as (b & l' & Hl & Hb).
    exists b, l'. split; [by rewrite <- Hl|done].
  - intros _. by exists a, l.
Qed.

Lemma take_while_app {A : Type} (p : A → bool) l1 l2 :
  Forall (λ a, p a = true) l1 →
  take_while p (l1 ++ l2) = l1 ++ take_while p l2.
Proof.
  induction 1 as [|a l1 Ha _ IH]; simpl; [done|]. by rewrite Ha, IH.
Qed.

Lemma forallb_Forall {A : Type} (p : A → bool) l :
  forallb p l = true ↔ Forall (λ a, p a = true) l.
Proof.
  rewrite Forall_forall, forallb_forall.
  split; intros H a Ha; apply H; by apply list_elem_of_In.
Qed.

Lemma at_end_drop (b : str) (p : nat) : at_end b p = bool_decide (drop p b = []).
Proof.
  unfold at_end. apply bool_decide_ext. split.
  - intros H. by apply drop_ge.
  - intros H. apply (f_equal length) in H. rewrite length_drop in H.
    simpl in H. lia.
Qed.

Lemma ends_token_take_while tail :
  ends_token tail → take_while (λ c, negb (isspace c)) tail = [].
Proof. destruct tail as [|c tail]; simpl; [done|]. by intros ->. Qed.

Lemma token_take_while tok tail :
  is_token tok → ends_token tail →
  take_while (λ c, negb (isspace c)) (tok ++ tail) = tok.
Proof.
  intros [_ Htok] Htail. rewrite take_while_app.
  - by rewrite ends_token_take_while, app_nil_r.
  - eapply Forall_impl; [exact Htok|]. by intros c ->.
Qed.

Lemma token_not_space tok tail :
  is_token tok → forallb isspace (tok ++ tail) = false.
Proof.
  intros [Hne Htok]. destruct tok as [|c tok]; [done|].
  inversion Htok as [|? ? Hc _]; subst. simpl. by rewrite Hc.
Qed.

Lemma token_take_while_space tok tail :
  is_token tok → take_while isspace (tok ++ tail) = [].
Proof.
  intros [Hne Htok]. destruct tok as [|c tok]; [done|].
  inversion Htok as [|? ? Hc _]; subst. simpl. by rewrite Hc.
Qed.

(** ** The stream operations on the characters still to be read *)

Lemma sentry_skip s ws r :
  good s = true → rest s = ws ++ r → all_space ws →
  take_while isspace r = [] → r ≠ [] →
  sentry false s = (true, IStream (buf s) (pos s + length ws) false false).
Proof.
  unfold rest. intros Hg Hr Hws Hstop Hne. unfold sentry. rewrite Hg.
  rewrite Hr, take_while_app by done. rewrite Hstop, app_nil_r.
  rewrite at_end_drop, <- drop_drop, Hr, drop_app_length.
  by rewrite bool_decide_eq_false_2.
Qed.

Lemma sentry_end s :
  good s = true → all_space (rest s) →
  ∃ p, sentry false s = (false, IStream (buf s) p true true).
Proof.
  unfold rest. intros Hg Hr. unfold sentry. rewrite Hg.
  rewrite take_while_all by by apply forallb_Forall.
  rewrite at_end_drop, <- drop_drop, drop_all.
  rewrite bool_decide_eq_true_2 by done. eauto.
Qed.

Lemma rest_advance b p k e f : rest (IStream b (p + k) e f) = drop k (drop p b).
Proof. unfold rest. simpl. by rewrite drop_drop. Qed.

Lemma extract_string_token s x ws tok tail :
  good s = true → rest s = ws ++ tok ++ tail →
  all_space ws → is_token tok → ends_token tail →
  extract_string s x =
  (IStream (buf s) (pos s + length ws + length tok)
     (bool_decide (tail = [])) false, tok).
Proof.
  intros Hg Hr Hws Htok Htail. unfold extract_string.
  rewrite (sentry_skip s ws (tok ++ tail)); try done.
  - simpl. unfold rest in Hr.
    rewrite <- drop_drop, Hr, drop_app_length.
    rewrite token_take_while by done.
    rewrite at_end_drop, <- !drop_drop, Hr, !drop_app_length.
    f_equal. f_equal. apply bool_decide_eq_false_2. apply Htok.
  - by apply token_take_while_space.
  - destruct Htok as [Hne _]. by destruct tok.
Qed.

Lemma extract_string_end s x :
  good s = true → all_space (rest s) →
  ∃ p, extract_string s x = (IStream (buf s) p true true, x).
Proof.
  intros Hg Hr. unfold extract_string.
  destruct (sentry_end s Hg Hr) as [p ->]. eauto.
Qed.

Lemma RemainderIsOnlySpaces_not_good s :
  good s = false → RemainderIsOnlySpaces s = (true, clear s).
Proof.
  intros Hg. unfold RemainderIsOnlySpaces, tellg, sentry. rewrite Hg.
  reflexivity.
Qed.

Lemma RemainderIsOnlySpaces_spaces s :
  good s = true → all_space (rest s) →
  ∃ p, RemainderIsOnlySpaces s = (true, IStream (buf s) p false false).
Proof.
  intros Hg Hr. unfold RemainderIsOnlySpaces, tellg, sentry at 1. rewrite Hg.
  destruct (Z.eqb_spec (Z.of_nat (pos s)) (-1)) as [E|_]; [lia|]. simpl.
  destruct (extract_string_end s [] Hg Hr) as [p ->]. simpl. eauto.
Qed.

Lemma RemainderIsOnlySpaces_more s :
  good s = true → forallb isspace (rest s) = false →
  ∃ s', RemainderIsOnlySpaces s = (false, s') ∧ buf s' = buf s.
Proof.
  intros Hg Hr.
  destruct (take_while_split _ _ Hr) as (c & r & Hsplit & Hc).
  set (ws := take_while isspace (rest s)) in *.
  assert (all_space ws) as Hws.
  { unfold ws. clear. induction (rest s) as [|a l IH]; simpl; [constructor|].
    destruct (isspace a) eqn:E; by constructor. }
  set (tok := take_while (λ c, negb (isspace c)) (c :: r)).
  assert (∃ tail, c :: r = tok ++ tail ∧ is_token tok ∧ ends_token tail)
    as (tail & Htail & Htok & Hend).
  { unfold tok. clear -Hc. revert c Hc.
    induction r as [|d r IH]; intros c Hc.
    - exists []. simpl. rewrite Hc. simpl. repeat split; try done.
      by repeat constructor.
    - simpl. rewrite Hc. simpl. destruct (isspace d) eqn:Hd; simpl.
      + exists (d :: r). repeat split; try done. by repeat constructor.
      + destruct (IH d Hd) as (tail & Ht & [_ Htok] & Hend).
        exists tail. simpl in Ht. rewrite Hd in Ht. simpl in Ht.
        split; [by rewrite <- Ht|]. split; [|done].
        split; [done|]. constructor; [done|].
        simpl in Htok. by rewrite Hd in Htok. }
  unfold RemainderIsOnlySpaces, tellg, sentry at 1. rewrite Hg.
  destruct (Z.eqb_spec (Z.of_nat (pos s)) (-1)) as [E|_]; [lia|]. simpl.
  rewrite (extract_string_token s [] ws tok tail); try done;
    [|by rewrite <- Htail].
  assert (find_first_not_of tok " " = 0) as ->.
  { unfold tok, find_first_not_of. simpl. rewrite Hc. simpl.
    destruct (decide (c ≠ " "%char)) as [_|E]; [done|].
    exfalso. apply E. intros ->. done. }
  simpl. eauto.
Qed.

Lemma seekg0_clear s : seekg0 (clear s) = IStream (buf s) 0 false false.
Proof. reflexivity. Qed.

Lemma all_space_ends_token ws : all_space ws → ends_token ws.
Proof. destruct 1; done. Qed.

Section reader_facts.
Context {T : Type} `{!Real T}.

Lemma ParseOnFail_one_token s (x : T) ws1 tok ws2 :
  buf s = ws1 ++ tok ++ ws2 → all_space ws1 → is_token tok → all_space ws2 →
  ∃ s3, fail s3 = false ∧
        ParseOnFail s x =
        match inf_nan_map !! (toupper <$> tok) with
        | Some v => (s3, v)
        | None => (setstate_failbit s3, x)
        end.
Proof.
  intros Hbuf Hws1 Htok Hws2. unfold ParseOnFail.
  rewrite seekg0_clear.
  rewrite (extract_string_token _ [] ws1 tok ws2);
    [|done|done|done|done|by apply all_space_ends_token].
  simpl.
  destruct ws2 as [|c ws2].
  - rewrite RemainderIsOnlySpaces_not_good by done. simpl.
    eexists. split; [|reflexivity]. done.
  - rewrite bool_decide_eq_false_2 by done.
    edestruct (RemainderIsOnlySpaces_spaces
                 (IStream (buf s) (length ws1 + length tok) false false))
      as [p ->]; [done| |].
    { unfold rest. simpl. rewrite Hbuf.
      rewrite <- drop_drop, drop_app_length, drop_app_length. done. }
    simpl. eexists. split; [|reflexivity]. done.
Qed.

Lemma ParseOnFail_two_tokens s (x : T) ws1 tok c mid :
  buf s = ws1 ++ tok ++ c :: mid → all_space ws1 → is_token tok →
  isspace c = true → forallb isspace mid = false →
  fail (fst (ParseOnFail s x)) = true.
Proof.
  intros Hbuf Hws1 Htok Hc Hmid. unfold ParseOnFail.
  rewrite seekg0_clear.
  rewrite (extract_string_token _ [] ws1 tok (c :: mid)); try done.
  simpl.
  edestruct (RemainderIsOnlySpaces_more
               (IStream (buf s) (length ws1 + length tok) false false))
    as (s' & -> & _); [done| |done].
  unfold rest. simpl. rewrite Hbuf.
  rewrite <- drop_drop, drop_app_length, drop_app_length.
  simpl. by rewrite Hc.
Qed.

Lemma standard_parse_buf s (x : T) :
  buf (fst (snd (standard_parse s x))) = buf s.
Proof.
  unfold standard_parse, extract_real, RemainderIsOnlySpaces, tellg,
    extract_string, sentry, setstate_failbit, clear.
  repeat (case_match; simplify_eq /=; try done).
Qed.
End reader_facts.

(** ** The table of special spellings *)

Section table_facts.
Context {T : Type} `{!Real T}.

Lemma inf_nan_map_spellings (k : str) :
  is_Some (inf_nan_map (T:=T) !! k) ↔ k ∈ spellings.
Proof.
  unfold inf_nan_map. rewrite !lookup_insert_is_Some.
  rewrite lookup_empty, is_Some_alt.
  unfold spellings. cbv [lit list_ascii_of_string fmap list_fmap].
  rewrite !elem_of_cons, elem_of_nil.
  split; intros H.
  - repeat (destruct H as [H|[_ H]]; [subst k; tauto|]). done.
  - repeat (destruct H as [->|H]; [|]); try done.
    all: repeat match goal with
         | |- _ ∨ _ => first [left; reflexivity | right]
         | |- _ ∧ _ => split; [discriminate|]
         end.
Qed.

Lemma inf_nan_map_positive (k : str) :
  k ∈ positive_inf_spellings → inf_nan_map (T:=T) !! k = Some infinity.
Proof.
  unfold positive_inf_spellings. simpl.
  rewrite !elem_of_cons, elem_of_nil.
  intros H. destruct_or!; subst; try done; vm_compute; reflexivity.
Qed.

Lemma inf_nan_map_negative (k : str) :
  k ∈ negative_inf_spellings → inf_nan_map (T:=T) !! k = Some (neg infinity).
Proof.
  unfold negative_inf_spellings. simpl.
  rewrite !elem_of_cons, elem_of_nil.
  intros H. destruct_or!; subst; try done; vm_compute; reflexivity.
Qed.
End table_facts.

(** ** Claims about [ConvertStringToReal] *)

Section reader_claims.
Context {T : Type} `{!Real T}.

Lemma ConvertStringToReal_fallback (str : str) (out : T) ws1 tok ws2 :
  str = ws1 ++ tok ++ ws2 → all_space ws1 → is_token tok → all_space ws2 →
  fst (standard_parse (IStream str 0 false false) out) = false →
  ∃ x1, ConvertStringToReal str out =
        match inf_nan_map !! (toupper <$> tok) with
        | Some v => (true, v)
        | None => (false, x1)
        end.
Proof.
  intros Hstr Hws1 Htok Hws2 Hstd.
  unfold ConvertStringToReal, read_number. simpl.
  pose proof (standard_parse_buf (IStream str 0 false false) out) as Hbuf.
  destruct (standard_parse (IStream str 0 false false) out)
    as [only [s2 x1]].
  simpl in Hstd, Hbuf. subst only.
  destruct (ParseOnFail_one_token s2 x1 ws1 tok ws2) as (s3 & Hs3 & ->);
    [congruence|done..|].
  exists x1. destruct (inf_nan_map !! (toupper <$> tok)); simpl.
  - by rewrite Hs3.
  - reflexivity.
Qed.

(** C6: when the standard extraction does not succeed on an input that
    is one token between white space, the call succeeds exactly when the
    upper-cased token is one of the thirteen spellings, whatever the case
    of its letters; the value is then the one of the table, which is
    infinity for INF, +INF, INFINITY, +INFINITY and 1.#INF and minus
    infinity for -INF, -INFINITY and -1.#INF. *)
Theorem special_spellings (str : str) (out : T) ws1 tok ws2 :
  str = ws1 ++ tok ++ ws2 → all_space ws1 → is_token tok → all_space ws2 →
  fst (standard_parse (IStream str 0 false false) out) = false →
  (fst (ConvertStringToReal str out) = true ↔ toupper <$> tok ∈ spellings) ∧
  (∀ v, inf_nan_map !! (toupper <$> tok) = Some v →
        ConvertStringToReal str out = (true, v)) ∧
  (toupper <$> tok ∈ positive_inf_spellings →
   ConvertStringToReal str out = (true, infinity)) ∧
  (toupper <$> tok ∈ negative_inf_spellings →
   ConvertStringToReal str out = (true, neg infinity)).
Proof.
  intros Hstr Hws1 Htok Hws2 Hstd.
  destruct (ConvertStringToReal_fallback str out ws1 tok ws2)
    as [x1 Hconv]; try done.
  assert (∀ v, inf_nan_map !! (toupper <$> tok) = Some v →
               ConvertStringToReal str out = (true, v)) as Hval.
  { intros v Hv. by rewrite Hconv, Hv. }
  split; [|split; [exact Hval|split]].
  - rewrite <- inf_nan_map_spellings, Hconv.
    destruct (inf_nan_map !! (toupper <$> tok)) as [v|]; simpl.
    + split; [eauto|done].
    + split; [done|]. by intros [v Hv].
  - intros Hin. by apply Hval, inf_nan_map_positive.
  - intros Hin. by apply Hval, inf_nan_map_negative.
Qed.

(** C5: a string made of one token that the standard extraction reads
    whole, with any white space before and after it, converts; the empty
    string does not; a string in which something other than white space
    follows the white space after the first token does not (the standard
    extraction stops at white space at the latest); and a single token
    of which the standard extraction reads only a part does not either,
    unless it is one of the special spellings. *)
Theorem convert_one_token :
  (∀ ws1 tok ws2 (v out : T),
     all_space ws1 → is_token tok → all_space ws2 →
     num_get (tok ++ ws2) = (length tok, Some v) →
     ConvertStringToReal (ws1 ++ tok ++ ws2) out = (true, v)) ∧
  (∀ out : T, ConvertStringToReal [] out = (false, out)) ∧
  (∀ ws1 tok c mid (out : T),
     all_space ws1 → is_token tok → isspace c = true →
     forallb isspace mid = false →
     (fst (num_get (T:=T) (tok ++ c :: mid)) ≤ length tok)%nat →
     fst (ConvertStringToReal (ws1 ++ tok ++ c :: mid) out) = false) ∧
  (∀ ws1 tok ws2 (out : T),
     all_space ws1 → is_token tok → all_space ws2 →
     (fst (num_get (T:=T) (tok ++ ws2)) < length tok)%nat →
     toupper <$> tok ∉ spellings →
     fst (ConvertStringToReal (ws1 ++ tok ++ ws2) out) = false).
Proof.
  split; [|split; [|split]].
  - intros ws1 tok ws2 v out Hws1 Htok Hws2 Hnum.
    unfold ConvertStringToReal, read_number, standard_parse, extract_real.
    simpl negb. cbv iota.
    rewrite (sentry_skip _ ws1 (tok ++ ws2)); try done;
      [|by apply token_take_while_space|destruct Htok as [? _]; by destruct tok].
    simpl. rewrite drop_app_length, Hnum. simpl.
    destruct ws2 as [|c ws2].
    + rewrite RemainderIsOnlySpaces_not_good; [reflexivity|].
      unfold good. simpl. rewrite at_end_drop.
      rewrite <- drop_drop, !drop_app_length. reflexivity.
    + edestruct (RemainderIsOnlySpaces_spaces
                   (IStream (ws1 ++ tok ++ c :: ws2)
                      (length ws1 + length tok)
                      (at_end (ws1 ++ tok ++ c :: ws2)
                         (length ws1 + length tok)) false))
        as [p ->]; [| |reflexivity].
      * unfold good. simpl. rewrite at_end_drop.
        rewrite <- drop_drop, !drop_app_length. reflexivity.
      * unfold rest. simpl. by rewrite <- drop_drop, !drop_app_length.
  - intros out. reflexivity.
  - intros ws1 tok c mid out Hws1 Htok Hc Hmid Hk.
    set (str := ws1 ++ tok ++ c :: mid).
    assert (fst (standard_parse (IStream str 0 false false) out) = false)
      as Hstd.
    { unfold standard_parse, extract_real.
      rewrite (sentry_skip _ ws1 (tok ++ c :: mid)); try done;
        [|by apply token_take_while_space|destruct Htok as [? _]; by destruct tok].
      simpl. unfold str. rewrite drop_app_length.
      destruct (num_get (tok ++ c :: mid)) as [k r]. simpl in Hk.
      assert (at_end (ws1 ++ tok ++ c :: mid) (length ws1 + k) = false)
        as Hend.
      { unfold at_end. apply bool_decide_eq_false_2.
        rewrite !length_app. simpl. lia. }
      destruct r as [v|]; simpl; [|done].
      rewrite Hend.
      edestruct (RemainderIsOnlySpaces_more
                   (IStream (ws1 ++ tok ++ c :: mid) (length ws1 + k)
                      false false)) as (s' & -> & _); [done| |done].
      unfold rest. simpl.
      rewrite <- drop_drop, drop_app_length, drop_app_le by done.
      rewrite forallb_app. simpl. rewrite Hmid.
      by rewrite andb_false_r, andb_false_r. }
    unfold ConvertStringToReal, read_number. simpl negb. cbv iota.
    pose proof (standard_parse_buf (IStream str 0 false false) out) as Hbuf.
    destruct (standard_parse (IStream str 0 false false) out)
      as [only [s2 x1]].
    simpl in Hstd, Hbuf. subst only.
    pose proof (ParseOnFail_two_tokens s2 x1 ws1 tok c mid Hbuf Hws1 Htok
                  Hc Hmid) as Hfail.
    destruct (ParseOnFail s2 x1) as [s3 x3]. simpl in *. by rewrite Hfail.
  - intros ws1 tok ws2 out Hws1 Htok Hws2 Hk Hnot.
    destruct (ConvertStringToReal_fallback (ws1 ++ tok ++ ws2) out ws1 tok ws2)
      as [x1 ->]; try done.
    + unfold standard_parse, extract_real.
      rewrite (sentry_skip _ ws1 (tok ++ ws2)); try done;
        [|by apply token_take_while_space|destruct Htok as [? _]; by destruct tok].
      simpl. rewrite drop_app_length.
      destruct (num_get (tok ++ ws2)) as [k r]. simpl in Hk.
      assert (at_end (ws1 ++ tok ++ ws2) (length ws1 + k) = false) as Hend.
      { unfold at_end. apply bool_decide_eq_false_2.
        rewrite !length_app. lia. }
      destruct r as [v|]; simpl; [|done].
      rewrite Hend.
      edestruct (RemainderIsOnlySpaces_more
                   (IStream (ws1 ++ tok ++ ws2) (length ws1 + k) false false))
        as (s' & -> & _); [done| |done].
      unfold rest. simpl.
      rewrite <- drop_drop, drop_app_length, drop_app_le by lia.
      apply token_not_space. destruct Htok as [_ Htok]. split.
      * intros E. apply (f_equal length) in E. rewrite length_drop in E.
        simpl in E. lia.
      * by apply Forall_drop.
    + destruct (inf_nan_map !! (toupper <$> tok)) as [v|] eqn:Hv; [|done].
      exfalso. apply Hnot. apply inf_nan_map_spellings. eauto.
Qed.
End reader_claims.

Lemma special_spellings_witness :
  ConvertStringToReal (lit " -inFinity ") (Finite 0 0) = (true, Inf true) ∧
  (fst (ConvertStringToReal (lit "nan?") (Finite 0 0)) = true ↔
   lit "NAN?" ∈ spellings).
Proof.
  split.
  - destruct (special_spellings (lit " -inFinity ") (Finite 0 0)
                (lit " ") (lit "-inFinity") (lit " ")) as (_ & _ & _ & H).
    + reflexivity.
    + repeat constructor.
    + split; [done|repeat constructor].
    + repeat constructor.
    + vm_compute. reflexivity.
    + apply H. vm_compute. repeat constructor.
  - destruct (special_spellings (lit "nan?") (Finite 0 0)
                [] (lit "nan?") []) as (H & _).
    + reflexivity.
    + constructor.
    + split; [done|repeat constructor].
    + constructor.
    + vm_compute. reflexivity.
    + exact H.
Defined.

Lemma convert_one_token_witness :
  ConvertStringToReal (lit "  3.14  ") (Finite 0 0) = (true, Finite 314 2) ∧
  fst (ConvertStringToReal (lit "3.14 xyz") (Finite 0 0)) = false ∧
  fst (ConvertStringToReal (lit "1 2") (Finite 0 0)) = false ∧
  fst (ConvertStringToReal (lit "3.14xyz") (Finite 0 0)) = false.
Proof.
  destruct (convert_one_token (T:=dec)) as (H1 & _ & H3 & H4).
  split; [|split; [|split]].
  - apply (H1 (lit "  ") (lit "3.14") (lit "  ")).
    + repeat constructor.
    + split; [done|repeat constructor].
    + repeat constructor.
    + vm_compute. reflexivity.
  - apply (H3 [] (lit "3.14") " "%char (lit "xyz")).
    + constructor.
    + split; [done|repeat constructor].
    + reflexivity.
    + reflexivity.
    + vm_compute. lia.
  - apply (H3 [] (lit "1") " "%char (lit "2")).
    + constructor.
    + split; [done|repeat constructor].
    + reflexivity.
    + reflexivity.
    + vm_compute. lia.
  - apply (H4 [] (lit "3.14xyz") []).
    + constructor.
    + split; [done|repeat constructor].
    + constructor.
    + vm_compute. lia.
    + intros Hin. apply inf_nan_map_spellings in Hin as [v Hv].
      vm_compute in Hv. discriminate Hv.
Defined.

(** ** Claims about [SplitStringToFloats] *)

Section split_claims.
Context {T : Type} `{!Real T}.

Lemma convert_pieces_false fuel (split : list str) (i : nat) (out out' : list T) :
  convert_pieces fuel split (Z.of_nat i) out = Ok (false, out') →
  ∃ k piece,
    (i ≤ k)%nat ∧ split !! k = Some piece ∧
    fst (ConvertStringToReal piece real_zero) = false ∧
    (∀ j p, (i ≤ j < k)%nat → split !! j = Some p →
            fst (ConvertStringToReal p real_zero) = true ∧
            out' !! j = Some (snd (ConvertStringToReal p real_zero))) ∧
    length out' = length out ∧
    (∀ j, (j < i ∨ k ≤ j)%nat → out' !! j = out !! j).
Proof.
  revert i out. induction fuel as [|fuel IH]; intros i out; simpl.
  - destruct (Z.of_nat i <? size split); discriminate.
  - destruct (Z.ltb_spec (Z.of_nat i) (size split)) as [Hi|Hi]; [|discriminate].
    destruct (vec_at_in_range split (Z.of_nat i)) as (piece & Hp & ->); [lia|].
    rewrite Nat2Z.id in Hp. simpl.
    destruct (ConvertStringToReal piece real_zero) as [ok f] eqn:Hconv.
    destruct ok; simpl.
    + unfold vec_set.
      destruct ((0 <=? Z.of_nat i) && (Z.of_nat i <? size out)) eqn:Hin;
        [|discriminate].
      simpl. rewrite Nat2Z.id.
      replace (Z.of_nat i + 1) with (Z.of_nat (Datatypes.S i)) by lia.
      intros Hrec.
      destruct (IH _ _ Hrec) as (k & q & Hk & Hq & Hfail & Hbefore & Hlen & Hrest).
      exists k, q. split; [lia|]. split; [done|]. split; [done|].
      rewrite length_insert in Hlen.
      split; [|split; [done|]].
      * intros j p Hj Hjp.
        destruct (decide (j = i)) as [->|Hne].
        -- rewrite Hp in Hjp. injection Hjp as <-. rewrite Hconv. simpl.
           split; [done|].
           rewrite Hrest by lia. apply list_lookup_insert_eq.
           unfold size in Hin. lia.
        -- apply Hbefore; [lia|done].
      * intros j Hj. rewrite Hrest by lia.
        apply list_lookup_insert_ne. lia.
    + intros [= <-]. exists i, piece.
      split; [done|]. split; [done|]. rewrite Hconv.
      split; [done|]. split; [intros j p Hj; lia|]. done.
Qed.

(** C1, as amended: when the call returns false, some piece [k] fails the
    conversion and every piece before it converts; the output vector is
    not emptied: it has one element for each piece, the values parsed from
    the pieces before [k] at their positions, and from position [k] on
    what the resize left there. *)
Theorem split_floats_failure (full delim : str) (omit_empty_strings : bool)
    (out0 out : list T) :
  SplitStringToFloats full delim omit_empty_strings out0 = Ok (false, out) →
  ∃ split k piece,
    SplitStringToVector full delim omit_empty_strings = Ok split ∧
    split !! k = Some piece ∧
    fst (ConvertStringToReal piece real_zero) = false ∧
    (∀ j p, (j < k)%nat → split !! j = Some p →
            fst (ConvertStringToReal p real_zero) = true ∧
            out !! j = Some (snd (ConvertStringToReal p real_zero))) ∧
    length out = length split ∧
    (∀ j, (k ≤ j)%nat →
          out !! j = resize (length split) real_zero out0 !! j) ∧
    out ≠ [].
Proof.
  unfold SplitStringToFloats. rewrite char_at_0. simpl.
  destruct (Ascii.eqb (first_char full) zero); [discriminate|].
  destruct (SplitStringToVector full delim omit_empty_strings)
    as [split| |]; simpl; try discriminate.
  intros Hrun.
  destruct (convert_pieces_false _ split 0 _ _ Hrun)
    as (k & piece & _ & Hk & Hfail & Hbefore & Hlen & Hrest).
  rewrite length_resize in Hlen.
  exists split, k, piece. repeat split; try done.
  - apply (Hbefore j p); [lia|done].
  - apply (Hbefore j p); [lia|done].
  - intros j Hj. apply Hrest. lia.
  - apply lookup_lt_Some in Hk. destruct out; simpl in *; [lia|done].
Qed.
End split_claims.

Lemma split_floats_failure_witness :
  ∃ split k piece,
    SplitStringToVector (lit "1,x,3") (lit ",") false = Ok split ∧
    split !! k = Some piece ∧
    fst (ConvertStringToReal piece (Finite 0 0)) = false ∧
    (∀ j p, (j < k)%nat → split !! j = Some p →
            fst (ConvertStringToReal p (Finite 0 0)) = true ∧
            [Finite 1 0; Finite 0 0; Finite 0 0] !! j =
            Some (snd (ConvertStringToReal p (Finite 0 0)))) ∧
    length [Finite 1 0; Finite 0 0; Finite 0 0] = length split ∧
    (∀ j, (k ≤ j)%nat →
          [Finite 1 0; Finite 0 0; Finite 0 0] !! j =
          resize (length split) (Finite 0 0) [] !! j) ∧
    [Finite 1 0; Finite 0 0; Finite 0 0] ≠ [].
Proof.
  refine (split_floats_failure (T:=dec) (lit "1,x,3") (lit ",") false []
            [Finite 1 0; Finite 0 0; Finite 0 0] _).
  vm_compute. reflexivity.
Defined.

(** C1, as stated, fails on ["1,x"]: the call returns false and the output
    vector holds the value parsed from the first piece. *)
Lemma fails_with_no_output_fails :
  ¬ fails_with_no_output (T:=dec) (lit "1,x") (lit ",") false [].
Proof.
  intros H. specialize (H [Finite 1 0; Finite 0 0] eq_refl). discriminate H.
Qed.

(** ** The batch reader returns *)

Lemma find_first_of_range (s chars : str) (start : Z) :
  0 ≤ start → size s < npos →
  find_first_of s chars start = npos ∨
  start ≤ find_first_of s chars start < size s.
Proof.
  intros Hs Hsize. unfold find_first_of.
  destruct (list_find _ _) as [[k c]|] eqn:Hfind; [|by left].
  right. apply list_find_Some in Hfind as (Hk & _ & _).
  apply lookup_lt_Some in Hk. rewrite length_drop in Hk.
  unfold size. lia.
Qed.

Lemma split_loop_total (full delim : str) (omit : bool) fuel start found out :
  0 ≤ start ≤ size full → size full < npos →
  (Z.to_nat (size full - start) < fuel)%nat →
  ∃ st, while (λ st : Z * Z * list str, negb (snd (fst st) =? npos))
          (split_body full delim omit) fuel (start, found, out) = Ok st.
Proof.
  intros Hstart Hsize. revert start found out Hstart.
  induction fuel as [|fuel IH]; intros start found out Hstart Hfuel; [lia|].
  simpl. destruct (found =? npos); simpl; [eauto|].
  unfold substr.
  destruct (Z.ltb_spec (size full) start) as [?|_]; [lia|].
  set (f := find_first_of full delim start).
  assert (∃ out', (if negb omit || negb (f =? start) && negb (start =? size full)
                   then piece <- Ok (take (Z.to_nat (Z.min (to_size_t (f - start))
                                                      (size full - start)))
                                       (drop (Z.to_nat start) full));;
                        Ok (out ++ [piece])
                   else Ok out) = Ok out') as [out' ->].
  { destruct (negb omit || _); simpl; eauto. }
  simpl.
  destruct (find_first_of_range full delim start) as [Hf|Hf]; [lia|done| |].
  - fold f in Hf. rewrite Hf.
    destruct fuel; simpl; eauto.
  - fold f in Hf. unfold to_size_t.
    rewrite (Z.mod_small (f + 1)) by (unfold npos in Hsize; lia).
    apply IH; lia.
Qed.

Lemma SplitStringToVector_total (full delim : str) (omit : bool) :
  size full < npos → ∃ v, SplitStringToVector full delim omit = Ok v.
Proof.
  intros Hsize. unfold SplitStringToVector.
  destruct (split_loop_total full (c_str delim) omit
              (Datatypes.S (length full)) 0 0 []) as [st ->].
  - pose proof (size_nonneg full). lia.
  - done.
  - unfold size. lia.
  - simpl. eauto.
Qed.

Section split_total.
Context {T : Type} `{!Real T}.

Lemma convert_pieces_total fuel (split : list str) (i : nat) (out : list T) :
length out = length split → (length split - i ≤ fuel)%nat →
∃ r, convert_pieces fuel split (Z.of_nat i) out = Ok r.
Proof.
revert i out. induction fuel as [|fuel IH]; intros i out Hlen Hfuel; simpl.
- destruct (Z.ltb_spec (Z.of_nat i) (size split)) as [Hi|Hi];
    [unfold size in Hi; lia|eauto].
- destruct (Z.ltb_spec (Z.of_nat i) (size split)) as [Hi|Hi]; [|eauto].
  destruct (vec_at_in_range split (Z.of_nat i)) as (piece & _ & ->); [lia|].
  simpl. destruct (ConvertStringToReal piece real_zero) as [[|] f]; simpl;
    [|eauto].
  unfold vec_set, size in *.
  destruct (Z.leb_spec 0 (Z.of_nat i)); [|lia].
  destruct (Z.ltb_spec (Z.of_nat i) (Z.of_nat (length out))); [|lia].
  simpl. replace (Z.of_nat i + 1) with (Z.of_nat (Datatypes.S i)) by lia.
  apply IH; [by rewrite length_insert|lia].
Qed.

(** The call returns for every input, with no access outside a string or a
  vector (a string is shorter than [npos]). *)
Lemma SplitStringToFloats_total (full delim : str) (omit : bool) (out0 : list T) :
size full < npos →
∃ r, SplitStringToFloats full delim omit out0 = Ok r.
Proof.
intros Hsize. unfold SplitStringToFloats. rewrite char_at_0. simpl.
destruct (Ascii.eqb (first_char full) zero); [eauto|].
destruct (SplitStringToVector_total full delim omit Hsize) as [split ->].
simpl. apply (convert_pieces_total _ split 0); [|lia].
by rewrite length_resize.
Qed.
End split_total.

(** ** Further properties *)

Lemma is_continuation_classify w :
  is_continuation w → classify is_special w = Continuation.
Proof.
  intros [H1 H2].
  rewrite (self_terminating_classify IsSpecial is_special IsSpecial_sp) in H1.
  destruct (classify is_special w) eqn:Hk; [done|done|].
  rewrite (continuation_classify IsSpecial is_special IsSpecial_sp) in H2
    by congruence.
  rewrite Hk in H2. done.
Qed.

Lemma run_continuations ws rest pend :
  Forall is_continuation ws → ws ≠ [] →
  run is_special (ws ++ rest) pend =
  run is_special rest (Some (default [] pend ++ concat ws)).
Proof.
  intros Hws. revert pend.
  induction Hws as [|w ws Hw Hws IH]; intros pend Hne; [done|].
  simpl. rewrite (is_continuation_classify w Hw).
  destruct ws as [|w' ws].
  - simpl. by rewrite app_nil_r.
  - rewrite IH by done. simpl. by rewrite <- !app_assoc.
Qed.

(** A run of continuation fragments that ends the input, or that a
    self-terminating fragment ends, becomes one word: the concatenation of
    its fragments; the self-terminating fragment is not merged into it. *)
Theorem merge_run_of_continuations (ws : list str) (w : str) :
  size ws + 1 < 2 ^ 31 → ws ≠ [] → Forall is_continuation ws →
  self_terminating IsSpecial w = Ok true →
  MergeCharactersIntoWords ws = Ok [concat ws] ∧
  MergeCharactersIntoWords (ws ++ [w]) = Ok ([concat ws] ++ emit w).
Proof.
  intros Hsize Hne Hws Hw. split.
  - rewrite merge_run_small by lia.
    rewrite <- (app_nil_r ws) at 1. by rewrite run_continuations.
  - rewrite merge_run_small
      by (rewrite size_app, size_cons; unfold size in *; simpl; lia).
    rewrite run_continuations by done. simpl.
    rewrite (self_terminating_classify IsSpecial is_special IsSpecial_sp) in Hw.
    destruct (classify is_special w); try done.
    simpl. by rewrite app_nil_r.
Qed.

Lemma merge_run_of_continuations_witness :
  MergeCharactersIntoWords [lit "o"; ["195"; "164"]%char] =
    Ok [lit "o" ++ ["195"; "164"]%char] ∧
  MergeCharactersIntoWords [lit "o"; ["195"; "164"]%char; lit "ffnen"] =
    Ok [lit "o" ++ ["195"; "164"]%char; lit "ffnen"].
Proof.
  apply (merge_run_of_continuations [lit "o"; ["195"; "164"]%char] (lit "ffnen")).
  - vm_compute. reflexivity.
  - discriminate.
  - repeat constructor.
  - reflexivity.
Defined.

(** [SplitStringToFloats] returns for every input, with no access outside
    a string or a vector, and an empty input gives an empty vector and the
    result true. *)
Theorem split_floats_returns {T : Type} `{!Real T}
    (full delim : str) (omit_empty_strings : bool) (out0 : list T) :
  size full < npos →
  (∃ b out, SplitStringToFloats full delim omit_empty_strings out0 = Ok (b, out)) ∧
  SplitStringToFloats [] delim omit_empty_strings out0 = Ok (true, []).
Proof.
  intros Hsize. split; [|reflexivity].
  destruct (SplitStringToFloats_total full delim omit_empty_strings out0 Hsize)
    as [[b out] Hr].
  eauto.
Qed.

Lemma split_floats_returns_witness :
  (∃ b out, SplitStringToFloats (lit "1,2,,3") (lit ",") true [Finite 9 0] =
            Ok (b, out)) ∧
  SplitStringToFloats [] (lit ",") true [Finite 9 0] = Ok (true, []).
Proof.
  apply (split_floats_returns (T:=dec)). vm_compute. reflexivity.
Defined.

(** ** The splitter against the pieces of its input *)

Lemma pieces_not_nil d s : pieces d s ≠ [].
Proof.
  destruct s as [|c s]; simpl; [done|].
  destruct (d c); [done|]. destruct (pieces d s); done.
Qed.

Lemma pieces_find (chars l : str) :
  match list_find (λ x, x ∈ chars) l with
  | Some (k, _) =>
      pieces (λ c, bool_decide (c ∈ chars)) l =
      take k l :: pieces (λ c, bool_decide (c ∈ chars)) (drop (Datatypes.S k) l)
  | None => pieces (λ c, bool_decide (c ∈ chars)) l = [l]
  end.
Proof.
  induction l as [|a l IH]; simpl; [done|].
  destruct (decide (a ∈ chars)) as [Ha|Ha]; simpl.
  - by rewrite bool_decide_eq_true_2.
  - rewrite bool_decide_eq_false_2 by done.
    destruct (list_find (λ x, x ∈ chars) l) as [[k c]|]; simpl.
    + by rewrite IH.
    + by rewrite IH.
Qed.

Lemma keep_cons omit (p : str) ps :
  keep omit (p :: ps) =
  (if omit && bool_decide (p = []) then [] else [p]) ++ keep omit ps.
Proof.
  unfold keep, nonempty. destruct omit; simpl; [|done].
  by destruct (bool_decide (p = [])).
Qed.

(** One iteration of the splitting loop when a delimiter is found [k]
    characters after [start]. *)
Lemma split_body_found (full chars : str) (omit : bool) start found out k c :
  0 ≤ start → size full < npos →
  list_find (λ x, x ∈ chars) (drop (Z.to_nat start) full) = Some (k, c) →
  split_body full chars omit (start, found, out) =
  Ok (start + Z.of_nat k + 1, start + Z.of_nat k,
      out ++ (if omit && bool_decide (take k (drop (Z.to_nat start) full) = [])
              then [] else [take k (drop (Z.to_nat start) full)])).
Proof.
  intros Hstart Hsize Hfind. unfold npos in Hsize.
  unfold split_body, find_first_of. rewrite Hfind.
  apply list_find_Some in Hfind as (Hk & _ & _).
  apply lookup_lt_Some in Hk. rewrite length_drop in Hk.
  unfold substr, to_size_t, size in *.
  replace (start + Z.of_nat k - start) with (Z.of_nat k) by lia.
  rewrite (Z.mod_small (Z.of_nat k)) by lia.
  rewrite (Z.mod_small (start + Z.of_nat k + 1)) by lia.
  rewrite Z.min_l by lia. rewrite Nat2Z.id.
  destruct (Z.ltb_spec (Z.of_nat (length full)) start) as [?|_]; [lia|].
  destruct (Z.eqb_spec (start + Z.of_nat k) start) as [E|E];
    destruct (Z.eqb_spec start (Z.of_nat (length full))) as [E'|E'];
    try lia; destruct omit; simpl.
  - assert (k = 0%nat) as -> by lia. simpl. by rewrite app_nil_r.
  - assert (k = 0%nat) as -> by lia. done.
  - rewrite bool_decide_eq_false_2; [done|].
    intros Ht. apply (f_equal length) in Ht.
    rewrite length_take, length_drop in Ht. simpl in Ht. lia.
  - done.
Qed.

(** The last iteration: no delimiter from [start] on. *)
Lemma split_body_last (full chars : str) (omit : bool) start found out :
  0 ≤ start ≤ size full → size full < npos →
  list_find (λ x, x ∈ chars) (drop (Z.to_nat start) full) = None →
  split_body full chars omit (start, found, out) =
  Ok (0, npos,
      out ++ (if omit && bool_decide (drop (Z.to_nat start) full = [])
              then [] else [drop (Z.to_nat start) full])).
Proof.
  intros Hstart Hsize Hfind. unfold npos in *.
  unfold split_body, find_first_of. rewrite Hfind.
  unfold substr, to_size_t, size, npos in *.
  rewrite (Z.mod_small (2 ^ 64 - 1 - start)) by lia.
  replace (2 ^ 64 - 1 + 1) with (1 * 2 ^ 64) by lia.
  rewrite Z.mod_mul by lia.
  rewrite Z.min_r by lia.
  destruct (Z.ltb_spec (Z.of_nat (length full)) start) as [?|_]; [lia|].
  assert (take (Z.to_nat (Z.of_nat (length full) - start))
            (drop (Z.to_nat start) full) = drop (Z.to_nat start) full) as ->.
  { apply take_ge. rewrite length_drop. lia. }
  destruct (Z.eqb_spec (2 ^ 64 - 1) start) as [E|_]; [lia|].
  destruct (Z.eqb_spec start (Z.of_nat (length full))) as [E'|E'];
    destruct omit; simpl; try done.
  - rewrite bool_decide_eq_true_2; [by rewrite app_nil_r|].
    apply drop_ge. lia.
  - rewrite bool_decide_eq_false_2; [done|].
    intros Ht. apply (f_equal length) in Ht.
    rewrite length_drop in Ht. simpl in Ht. lia.
Qed.

Lemma split_loop_spec (full chars : str) (omit : bool) fuel start found out :
  0 ≤ start ≤ size full → size full < npos → found ≠ npos →
  (Z.to_nat (size full - start) < fuel)%nat →
  ∃ st, while (λ st : Z * Z * list str, negb (snd (fst st) =? npos))
          (split_body full chars omit) fuel (start, found, out) = Ok st ∧
        snd st =
        out ++ keep omit (pieces (λ c, bool_decide (c ∈ chars))
                            (drop (Z.to_nat start) full)).
Proof.
  intros Hstart Hsize. revert start found out Hstart.
  induction fuel as [|fuel IH]; intros start found out Hstart Hfound Hfuel;
    [lia|].
  assert ((negb (found =? npos)) = true) as Hc.
  { destruct (Z.eqb_spec found npos); done. }
  pose proof (pieces_find chars (drop (Z.to_nat start) full)) as Hp.
  destruct (list_find (λ x, x ∈ chars) (drop (Z.to_nat start) full))
    as [[k c]|] eqn:Hfind.
  - pose proof (split_body_found full chars omit start found out k c
                  ltac:(lia) Hsize Hfind) as Hbody.
    rewrite (while_step _ _ _ (start, found, out) _ Hc Hbody).
    apply list_find_Some in Hfind as (Hk & _ & _).
    apply lookup_lt_Some in Hk. rewrite length_drop in Hk.
    unfold size, npos in *.
    edestruct (IH (start + Z.of_nat k + 1) (start + Z.of_nat k))
      as (st & -> & Hst); [lia|lia|lia|].
    exists st. split; [done|]. rewrite Hst, Hp, keep_cons.
    rewrite <- app_assoc. do 2 f_equal.
    rewrite drop_drop.
    by replace (Z.to_nat (start + Z.of_nat k + 1))
      with (Z.to_nat start + Datatypes.S k)%nat by lia.
  - pose proof (split_body_last full chars omit start found out
                  Hstart Hsize Hfind) as Hbody.
    rewrite (while_step _ _ _ (start, found, out) _ Hc Hbody).
    rewrite while_done by done.
    eexists. split; [done|]. simpl. rewrite Hp, keep_cons.
    unfold keep. destruct omit; simpl; by rewrite ?app_nil_r.
Qed.

Lemma SplitStringToVector_pieces (full delim : str) (omit : bool) :
  size full < npos →
  SplitStringToVector full delim omit =
  Ok (keep omit (pieces (is_delim delim) full)).
Proof.
  intros Hsize. unfold SplitStringToVector.
  destruct (split_loop_spec full (c_str delim) omit
              (Datatypes.S (length full)) 0 0 []) as (st & -> & Hst).
  - pose proof (size_nonneg full). lia.
  - done.
  - done.
  - unfold size. lia.
  - simpl. by rewrite Hst.
Qed.

Lemma pieces_no_delim d s :
  Forall (Forall (λ c, d c = false)) (pieces d s).
Proof.
  induction s as [|c s IH]; simpl; [by repeat constructor|].
  destruct (d c) eqn:Hc; [by constructor|].
  destruct (pieces d s) as [|p ps]; [by repeat constructor|].
  inversion IH; subst. constructor; [by constructor|done].
Qed.

Lemma pieces_concat d s :
  concat (pieces d s) = List.filter (λ c, negb (d c)) s.
Proof.
  induction s as [|c s IH]; simpl; [done|].
  destruct (d c); simpl; [done|].
  destruct (pieces d s) as [|p ps] eqn:Hp; [by destruct (pieces_not_nil d s)|].
  simpl in *. by rewrite IH.
Qed.

Lemma pieces_length d s :
  length (pieces d s) = Datatypes.S (length (List.filter d s)).
Proof.
  induction s as [|c s IH]; simpl; [done|].
  destruct (d c); simpl; [by rewrite IH|].
  destruct (pieces d s) as [|p ps] eqn:Hp; [by destruct (pieces_not_nil d s)|].
  simpl in *. done.
Qed.

Lemma pieces_app_delim d l1 c l2 :
  d c = true → pieces d (l1 ++ c :: l2) = pieces d l1 ++ pieces d l2.
Proof.
  intros Hc. induction l1 as [|a l1 IH]; simpl; [by rewrite Hc|].
  destruct (d a); [by rewrite IH|]. rewrite IH.
  destruct (pieces d l1) as [|p ps] eqn:Hp; [by destruct (pieces_not_nil d l1)|].
  done.
Qed.

Lemma pieces_id d p : Forall (λ c, d c = false) p → pieces d p = [p].
Proof. induction 1 as [|c p Hc _ IH]; simpl; [done|]. by rewrite Hc, IH. Qed.

Lemma pieces_all_delim d s :
  forallb d s = true → List.filter nonempty (pieces d s) = [].
Proof.
  induction s as [|c s IH]; simpl; [done|].
  destruct (d c); simpl; [|done]. done.
Qed.

Lemma pieces_join d d0 s :
  (∀ c, d c = true → c = d0) → join d0 (pieces d s) = s.
Proof.
  intros Hd. induction s as [|c s IH]; simpl; [done|].
  destruct (d c) eqn:Hc.
  - destruct (pieces d s) as [|p ps] eqn:Hp; [by destruct (pieces_not_nil d s)|].
    simpl. rewrite (Hd c Hc). by rewrite <- IH.
  - destruct (pieces d s) as [|p ps] eqn:Hp; [by destruct (pieces_not_nil d s)|].
    rewrite <- IH. simpl. by destruct ps.
Qed.

Lemma join_pieces d d0 ps :
  d d0 = true → ps ≠ [] → Forall (Forall (λ c, d c = false)) ps →
  pieces d (join d0 ps) = ps.
Proof.
  intros Hd0 Hne Hps. induction Hps as [|p ps Hp Hps IH]; [done|].
  destruct ps as [|p' ps].
  - simpl. by apply pieces_id.
  - change (join d0 (p :: p' :: ps)) with (p ++ d0 :: join d0 (p' :: ps)).
    rewrite pieces_app_delim by done.
    rewrite pieces_id by done. by rewrite IH.
Qed.

Lemma c_str_single (d : ascii) : d ≠ zero → c_str [d] = [d].
Proof.
  intros Hd. unfold c_str. simpl.
  destruct (Ascii.eqb_spec d zero); done.
Qed.

Lemma is_delim_single (d c : ascii) :
  d ≠ zero → is_delim [d] c = bool_decide (c = d).
Proof.
  intros Hd. unfold is_delim. rewrite c_str_single by done.
  apply bool_decide_ext. apply list_elem_of_singleton.
Qed.

(** ** Properties of [SplitStringToVector] *)

(** Without [omit_empty_strings] the result has one piece more than the
    input has delimiter characters, no piece holds a delimiter, and the
    pieces one after the other are the input without its delimiters. *)
Theorem split_vector_pieces (full delim : str) :
  size full < npos →
  ∃ ps, SplitStringToVector full delim false = Ok ps ∧
        length ps = Datatypes.S (length (List.filter (is_delim delim) full)) ∧
        Forall (Forall (λ c, c ∉ c_str delim)) ps ∧
        concat ps = List.filter (λ c, negb (is_delim delim c)) full.
Proof.
  intros Hsize. eexists. split; [by apply SplitStringToVector_pieces|].
  unfold keep. split; [apply pieces_length|]. split; [|apply pieces_concat].
  eapply Forall_impl; [apply pieces_no_delim|].
  intros p Hp. eapply Forall_impl; [exact Hp|].
  intros c Hc. simpl in Hc. unfold is_delim in Hc.
  by apply bool_decide_eq_false_1 in Hc.
Qed.

Lemma split_vector_pieces_witness :
  ∃ ps, SplitStringToVector (lit ",a;,b") (lit ",;") false = Ok ps ∧
        length ps = 4%nat ∧
        Forall (Forall (λ c, c ∉ c_str (lit ",;"))) ps ∧
        concat ps = lit "ab".
Proof.
  apply (split_vector_pieces (lit ",a;,b") (lit ",;")).
  vm_compute. reflexivity.
Defined.

(** With [omit_empty_strings] the result is the result without it less its
    empty pieces, in the same order; an input made of delimiters only, the
    empty input included, gives no piece at all. *)
Theorem split_vector_omit_empty (full delim : str) :
  size full < npos →
  ∃ ps, SplitStringToVector full delim false = Ok ps ∧
        SplitStringToVector full delim true = Ok (List.filter nonempty ps) ∧
        Forall (λ p, p ≠ []) (List.filter nonempty ps) ∧
        (forallb (is_delim delim) full = true →
         SplitStringToVector full delim true = Ok []).
Proof.
  intros Hsize. exists (pieces (is_delim delim) full).
  rewrite !SplitStringToVector_pieces by done. unfold keep.
  split; [done|]. split; [done|]. split.
  - apply Forall_forall. intros p Hp.
    apply list_elem_of_In, List.filter_In in Hp as [_ Hp].
    unfold nonempty in Hp. intros ->. done.
  - intros Hall. by rewrite pieces_all_delim.
Qed.

Lemma split_vector_omit_empty_witness :
  ∃ ps, SplitStringToVector (lit ",a,,b,") (lit ",") false = Ok ps ∧
        SplitStringToVector (lit ",a,,b,") (lit ",") true =
          Ok (List.filter nonempty ps) ∧
        Forall (λ p, p ≠ []) (List.filter nonempty ps) ∧
        (forallb (is_delim (lit ",")) (lit ",a,,b,") = true →
         SplitStringToVector (lit ",a,,b,") (lit ",") true = Ok []).
Proof.
  apply (split_vector_omit_empty (lit ",a,,b,") (lit ",")).
  vm_compute. reflexivity.
Defined.

(** With a single delimiter character [d], splitting and joining with [d]
    are inverse to each other: the pieces of [full] joined give [full]
    back, and the join of pieces that hold no [d] splits into them. *)
Theorem split_join_round_trip (d : ascii) :
  d ≠ zero →
  (∀ full, size full < npos →
     ∃ ps, SplitStringToVector full [d] false = Ok ps ∧ join d ps = full) ∧
  (∀ ps, ps ≠ [] → Forall (λ p, d ∉ p) ps → size (join d ps) < npos →
     SplitStringToVector (join d ps) [d] false = Ok ps).
Proof.
  intros Hd. split.
  - intros full Hsize. eexists.
    split; [by apply SplitStringToVector_pieces|].
    unfold keep. apply pieces_join. intros c Hc.
    rewrite is_delim_single in Hc by done.
    by apply bool_decide_eq_true_1 in Hc.
  - intros ps Hne Hps Hsize.
    rewrite SplitStringToVector_pieces by done. unfold keep. f_equal.
    apply join_pieces; [|done|].
    + rewrite is_delim_single by done. by apply bool_decide_eq_true_2.
    + eapply Forall_impl; [exact Hps|]. intros p Hp.
      apply Forall_forall. intros c Hc.
      rewrite is_delim_single by done. apply bool_decide_eq_false_2.
      intros ->. done.
Qed.

Lemma split_join_round_trip_witness :
  (∃ ps, SplitStringToVector (lit "1:2::3") [":"%char] false = Ok ps ∧
         join ":" ps = lit "1:2::3") ∧
  SplitStringToVector (join ":" [lit "ab"; []; lit "c"]) [":"%char] false =
    Ok [lit "ab"; []; lit "c"].
Proof.
  destruct (split_join_round_trip ":"%char) as [H1 H2]; [discriminate|].
  split.
  - apply H1. vm_compute. reflexivity.
  - apply H2.
    + discriminate.
    + repeat constructor; vm_compute; intros H; by repeat (inversion_clear H as [|? ? ? H']; rename H' into H).
    + vm_compute. reflexivity.
Defined.

(** ** Properties of [SplitStringToFloats] *)

Section floats_facts.
Context {T : Type} `{!Real T}.

Lemma convert_pieces_true fuel (split : list str) (i : nat) (out out' : list T) :
  convert_pieces fuel split (Z.of_nat i) out = Ok (true, out') →
  length out' = length out ∧
  (∀ j, (j < i)%nat → out' !! j = out !! j) ∧
  (∀ j p, (i ≤ j)%nat → split !! j = Some p →
          fst (ConvertStringToReal p real_zero) = true ∧
          out' !! j = Some (snd (ConvertStringToReal p real_zero))).
Proof.
  revert i out. induction fuel as [|fuel IH]; intros i out; simpl.
  - destruct (Z.ltb_spec (Z.of_nat i) (size split)) as [Hi|Hi]; [discriminate|].
    intros [= <-]. split; [done|]. split; [done|].
    intros j p Hj Hp. apply lookup_lt_Some in Hp. unfold size in Hi. lia.
  - destruct (Z.ltb_spec (Z.of_nat i) (size split)) as [Hi|Hi].
    + destruct (vec_at_in_range split (Z.of_nat i)) as (piece & Hp & ->); [lia|].
      rewrite Nat2Z.id in Hp. simpl.
      destruct (ConvertStringToReal piece real_zero) as [ok f] eqn:Hconv.
      destruct ok; simpl; [|discriminate].
      unfold vec_set.
      destruct ((0 <=? Z.of_nat i) && (Z.of_nat i <? size out)) eqn:Hin;
        [|discriminate].
      simpl. rewrite Nat2Z.id.
      replace (Z.of_nat i + 1) with (Z.of_nat (Datatypes.S i)) by lia.
      intros Hrec. destruct (IH _ _ Hrec) as (Hlen & Hlow & Hhigh).
      rewrite length_insert in Hlen.
      split; [done|]. split.
      * intros j Hj. rewrite Hlow by lia. apply list_lookup_insert_ne. lia.
      * intros j p Hj Hjp. destruct (decide (j = i)) as [->|Hne].
        -- rewrite Hp in Hjp. injection Hjp as <-. rewrite Hconv. simpl.
           split; [done|]. rewrite Hlow by lia.
           apply list_lookup_insert_eq. unfold size in Hin. lia.
        -- apply Hhigh; [lia|done].
    + intros [= <-]. split; [done|]. split; [done|].
      intros j p Hj Hp. apply lookup_lt_Some in Hp. unfold size in Hi. lia.
Qed.

Lemma convert_pieces_all fuel (split : list str) (out out' : list T) :
  length out = length split →
  convert_pieces fuel split 0 out = Ok (true, out') →
  Forall (λ p, fst (ConvertStringToReal p real_zero) = true) split ∧
  out' = (λ p, snd (ConvertStringToReal p real_zero)) <$> split.
Proof.
  intros Hlen Hrun.
  destruct (convert_pieces_true fuel split 0 out out' Hrun)
    as (Hlen' & _ & Hall).
  split.
  - apply Forall_lookup. intros j p Hp. apply (Hall j p); [lia|done].
  - apply list_eq. intros j. rewrite list_lookup_fmap.
    destruct (split !! j) as [p|] eqn:Hp; simpl.
    + apply (Hall j p); [lia|done].
    + apply lookup_ge_None. apply lookup_ge_None in Hp. lia.
Qed.

Lemma SplitStringToFloats_nonempty (full delim : str) (omit : bool)
    (out0 : list T) split :
  first_char full ≠ zero →
  SplitStringToVector full delim omit = Ok split →
  SplitStringToFloats full delim omit out0 =
  convert_pieces (length split) split 0 (resize (length split) real_zero out0).
Proof.
  intros Hfirst Hsplit. unfold SplitStringToFloats.
  rewrite char_at_0. simpl.
  destruct (Ascii.eqb_spec (first_char full) zero) as [E|_]; [done|].
  by rewrite Hsplit.
Qed.

(** When the input does not start with NUL, the call returns true exactly
    when every piece converts, and the output vector then holds the
    values of the pieces, one for each piece and in order: nothing of
    what the vector held before the call is left. *)
Theorem split_floats_success (full delim : str) (omit_empty_strings : bool)
    (out0 out : list T) split :
  first_char full ≠ zero →
  SplitStringToVector full delim omit_empty_strings = Ok split →
  (SplitStringToFloats full delim omit_empty_strings out0 = Ok (true, out) ↔
   Forall (λ p, fst (ConvertStringToReal p real_zero) = true) split ∧
   out = (λ p, snd (ConvertStringToReal p real_zero)) <$> split).
Proof.
  intros Hfirst Hsplit.
  rewrite (SplitStringToFloats_nonempty full delim omit_empty_strings out0 split)
    by done.
  split.
  - apply convert_pieces_all. by rewrite length_resize.
  - intros [Hall ->].
    destruct (convert_pieces_total (length split) split 0
                (resize (length split) real_zero out0))
      as [[b out'] Hrun]; [by rewrite length_resize|lia|].
    change (Z.of_nat 0) with 0 in Hrun. rewrite Hrun.
    destruct b.
    + apply convert_pieces_all in Hrun as [_ ->]; [done|].
      by rewrite length_resize.
    + apply (convert_pieces_false _ split 0) in Hrun
        as (k & piece & _ & Hk & Hfail & _).
      rewrite Forall_lookup in Hall. rewrite (Hall k piece Hk) in Hfail.
      discriminate.
Qed.

(** Without [omit_empty_strings], an input that does not start with NUL
    and in which a delimiter comes first, comes last or is followed by
    another delimiter makes the call return false: the empty piece does
    not convert. *)
Theorem split_floats_empty_piece (full delim : str) (out0 : list T) l1 d l2 :
  size full < npos → first_char full ≠ zero →
  full = l1 ++ d :: l2 → is_delim delim d = true →
  l1 = [] ∨ l2 = [] ∨ is_delim delim (first_char l2) = true →
  ∃ out, SplitStringToFloats full delim false out0 = Ok (false, out).
Proof.
  intros Hsize Hfirst Hfull Hd Hwhere.
  pose proof (SplitStringToVector_pieces full delim false Hsize) as Hsplit.
  unfold keep in Hsplit.
  assert ([] ∈ pieces (is_delim delim) full) as Hempty.
  { rewrite Hfull, pieces_app_delim by done. apply elem_of_app.
    destruct Hwhere as [->|[->|Hnext]].
    - left. simpl. apply list_elem_of_here.
    - right. simpl. apply list_elem_of_here.
    - right. destruct l2 as [|d' l2]; [apply list_elem_of_here|].
      change (first_char (d' :: l2)) with d' in Hnext.
      cbn [pieces]. rewrite Hnext. apply list_elem_of_here. }
  rewrite (SplitStringToFloats_nonempty full delim false out0 _ Hfirst Hsplit).
  destruct (convert_pieces_total (length (pieces (is_delim delim) full))
              (pieces (is_delim delim) full) 0
              (resize (length (pieces (is_delim delim) full)) real_zero out0))
    as [[b out'] Hrun]; [by rewrite length_resize|lia|].
  change (Z.of_nat 0) with 0 in Hrun. rewrite Hrun.
  destruct b; [|eauto].
  apply convert_pieces_all in Hrun as [Hall _]; [|by rewrite length_resize].
  rewrite Forall_forall in Hall. specialize (Hall [] Hempty).
  discriminate Hall.
Qed.
End floats_facts.

Lemma split_floats_success_witness :
  SplitStringToFloats (lit "1.5,-2,3") (lit ",") false [Finite 9 0] =
    Ok (true, [Finite 15 1; Finite (-2) 0; Finite 3 0]) ↔
  Forall (λ p, fst (ConvertStringToReal p (Finite 0 0)) = true)
    [lit "1.5"; lit "-2"; lit "3"] ∧
  [Finite 15 1; Finite (-2) 0; Finite 3 0] =
    (λ p, snd (ConvertStringToReal p (Finite 0 0))) <$>
      [lit "1.5"; lit "-2"; lit "3"].
Proof.
  refine (split_floats_success (T:=dec) (lit "1.5,-2,3") (lit ",") false
            [Finite 9 0] _ [lit "1.5"; lit "-2"; lit "3"] _ _).
  - discriminate.
  - vm_compute. reflexivity.
Defined.

Lemma split_floats_empty_piece_witness :
  ∃ out, SplitStringToFloats (lit "1,,2") (lit ",") false ([] : list dec) =
         Ok (false, out).
Proof.
  refine (split_floats_empty_piece (T:=dec) (lit "1,,2") (lit ",") []
            (lit "1") ","%char (lit ",2") _ _ _ _ _).
  - vm_compute. reflexivity.
  - discriminate.
  - reflexivity.
  - reflexivity.
  - right. right. reflexivity.
Defined.

(** ** Which strings [ConvertStringToReal] accepts *)

Lemma RemainderIsOnlySpaces_fst s :
  fst (RemainderIsOnlySpaces s) = negb (good s) || forallb isspace (rest s).
Proof.
  destruct (good s) eqn:Hg; simpl.
  - destruct (forallb isspace (rest s)) eqn:Hr.
    + apply forallb_Forall in Hr.
      by destruct (RemainderIsOnlySpaces_spaces s Hg Hr) as [p ->].
    + by destruct (RemainderIsOnlySpaces_more s Hg Hr) as (s' & -> & _).
  - by rewrite RemainderIsOnlySpaces_not_good.
Qed.

Lemma RemainderIsOnlySpaces_true s :
  fst (RemainderIsOnlySpaces s) = true →
  fail (snd (RemainderIsOnlySpaces s)) = false.
Proof.
  unfold RemainderIsOnlySpaces.
  destruct (tellg s) as [p s1].
  destruct (negb (p =? -1)); [|done].
  destruct (extract_string s1 []) as [s2 rem].
  by destruct (negb (find_first_not_of rem " " =? npos)).
Qed.

Lemma token_split c r :
  isspace c = false →
  ∃ tok tail, c :: r = tok ++ tail ∧ is_token tok ∧ ends_token tail.
Proof.
  revert c. induction r as [|d r IH]; intros c Hc.
  - exists [c], []. repeat split; try done. by repeat constructor.
  - destruct (isspace d) eqn:Hd.
    + exists [c], (d :: r). repeat split; try done. by repeat constructor.
    + destruct (IH d Hd) as (tok & tail & Ht & [_ Htok] & Hend).
      exists (c :: tok), tail. rewrite Ht. repeat split; try done.
      by constructor.
Qed.

(** A string is white space only, or starts with white space and a token. *)
Lemma tokenize (str : str) :
  all_space str ∨
  ∃ ws1 tok tail, str = ws1 ++ tok ++ tail ∧
                  all_space ws1 ∧ is_token tok ∧ ends_token tail.
Proof.
  destruct (forallb isspace str) eqn:Hall.
  - left. by apply forallb_Forall.
  - right. destruct (take_while_split _ _ Hall) as (c & r & Hsplit & Hc).
    destruct (token_split c r Hc) as (tok & tail & Ht & Htok & Hend).
    exists (take_while isspace str), tok, tail.
    split; [by rewrite <- Ht|]. split; [|done].
    clear. induction str as [|a l IH]; simpl; [constructor|].
    destruct (isspace a) eqn:E; by constructor.
Qed.

Lemma ends_token_cases tail :
  ends_token tail →
  all_space tail ∨
  ∃ c mid, tail = c :: mid ∧ isspace c = true ∧ forallb isspace mid = false.
Proof.
  destruct tail as [|c mid]; simpl; intros Hc; [left; constructor|].
  destruct (forallb isspace mid) eqn:Hmid.
  - left. constructor; [done|]. by apply forallb_Forall.
  - right. eauto.
Qed.

Section convert_facts.
Context {T : Type} `{!Real T}.

Lemma standard_parse_token (out : T) ws1 tok tail :
  all_space ws1 → is_token tok →
  standard_parse (IStream (ws1 ++ tok ++ tail) 0 false false) out =
  let '(k, r) := num_get (tok ++ tail) in
  let s1 := IStream (ws1 ++ tok ++ tail) (length ws1 + k)
              (bool_decide (drop k (tok ++ tail) = [])) in
  match r with
  | Some v =>
      let '(only, s2) := RemainderIsOnlySpaces (s1 false) in (only, (s2, v))
  | None => (false, (s1 true, real_zero))
  end.
Proof.
  intros Hws1 Htok. unfold standard_parse, extract_real.
  rewrite (sentry_skip _ ws1 (tok ++ tail)); try done;
    [|by apply token_take_while_space|destruct Htok as [? _]; by destruct tok].
  simpl. rewrite drop_app_length.
  destruct (num_get (tok ++ tail)) as [k r].
  rewrite at_end_drop, <- drop_drop, drop_app_length.
  destruct r as [v|]; simpl; [|done].
  by destruct (bool_decide (drop k (tok ++ tail) = [])).
Qed.

Lemma standard_parse_token_fst (out : T) ws1 tok tail :
  all_space ws1 → is_token tok →
  (fst (num_get (T:=T) (tok ++ tail)) ≤ length tok)%nat →
  fst (standard_parse (IStream (ws1 ++ tok ++ tail) 0 false false) out) = true ↔
  (∃ v, num_get (tok ++ tail) = (length tok, Some v)) ∧ all_space tail.
Proof.
  intros Hws1 Htok Hk. rewrite standard_parse_token by done.
  destruct (num_get (tok ++ tail)) as [k r]. simpl in Hk.
  destruct r as [v|]; simpl.
  - pose proof (RemainderIsOnlySpaces_fst
                  (IStream (ws1 ++ tok ++ tail) (length ws1 + k)
                     (bool_decide (drop k (tok ++ tail) = [])) false)) as Hrem.
    destruct (RemainderIsOnlySpaces _) as [only s2]. simpl in *.
    rewrite Hrem. clear Hrem. unfold good, rest. simpl.
    rewrite <- drop_drop, drop_app_length, andb_true_r, negb_involutive.
    rewrite drop_app_le by done.
    split.
    + intros Hor.
      assert (forallb isspace (drop k tok ++ tail) = true) as Hall.
      { apply orb_true_iff in Hor as [Hnil|Hall]; [|done].
        apply bool_decide_eq_true_1 in Hnil. by rewrite Hnil. }
      rewrite forallb_app in Hall. apply andb_true_iff in Hall as [Htk Htail].
      assert (drop k tok = []) as Hdrop.
      { destruct (drop k tok) as [|c l] eqn:E; [done|].
        destruct Htok as [_ Htok].
        apply (Forall_drop _ k) in Htok. rewrite E in Htok.
        inversion Htok as [|? ? Hc _]; subst.
        simpl in Htk. by rewrite Hc in Htk. }
      apply (f_equal length) in Hdrop. rewrite length_drop in Hdrop.
      simpl in Hdrop. split; [|by apply forallb_Forall].
      exists v. do 2 f_equal. lia.
    + intros [[v' [= -> ->]] Htail]. rewrite drop_all. simpl.
      apply orb_true_iff. right. by apply forallb_Forall.
  - split; [done|]. by intros [[v' [= _ ?]] _].
Qed.

Lemma standard_parse_true (s : istream) (x : T) :
  fst (standard_parse s x) = true →
  fail (fst (snd (standard_parse s x))) = false.
Proof.
  unfold standard_parse. destruct (extract_real s x) as [s1 x1].
  destruct (negb (fail s1)); [|done].
  pose proof (RemainderIsOnlySpaces_true s1) as Hrem.
  destruct (RemainderIsOnlySpaces s1) as [only s2]. done.
Qed.

Lemma ConvertStringToReal_blank (str : str) (out : T) :
  all_space str → ConvertStringToReal str out = (false, out).
Proof.
  intros Hall. unfold ConvertStringToReal, read_number. simpl negb. cbv iota.
  unfold standard_parse, extract_real.
  destruct (sentry_end (IStream str 0 false false)) as [p ->]; [done|done|].
  cbn [fail failbit negb]. cbv iota beta.
  unfold ParseOnFail. rewrite seekg0_clear. cbn [buf].
  destruct (extract_string_end (IStream str 0 false false) [])
    as [q ->]; [done|done|].
  reflexivity.
Qed.

(** A string of white space only, the empty string included, does not
    convert, and the value of [*out] is left as it was. *)
Theorem convert_blank (str : str) (out : T) :
  all_space str →
  fst (ConvertStringToReal str out) = false ∧
  snd (ConvertStringToReal str out) = out.
Proof. intros Hall. by rewrite ConvertStringToReal_blank. Qed.

Lemma convert_two_tokens (out : T) ws1 tok c mid :
  all_space ws1 → is_token tok → isspace c = true →
  forallb isspace mid = false →
  (fst (num_get (T:=T) (tok ++ c :: mid)) ≤ length tok)%nat →
  fst (ConvertStringToReal (ws1 ++ tok ++ c :: mid) out) = false.
Proof.
  intros Hws1 Htok Hc Hmid Hk.
  unfold ConvertStringToReal, read_number. simpl negb. cbv iota.
  pose proof (standard_parse_token_fst out ws1 tok (c :: mid) Hws1 Htok Hk)
    as Hstd.
  pose proof (standard_parse_buf
                (IStream (ws1 ++ tok ++ c :: mid) 0 false false) out) as Hbuf.
  destruct (standard_parse _ out) as [only [s2 x1]]. simpl in *.
  destruct only.
  - destruct Hstd as [Hstd _]. destruct (Hstd eq_refl) as [_ Hsp].
    inversion Hsp as [|? ? _ Hsp']; subst.
    apply forallb_Forall in Hsp'. congruence.
  - pose proof (ParseOnFail_two_tokens s2 x1 ws1 tok c mid Hbuf Hws1 Htok
                  Hc Hmid) as Hfail.
    destruct (ParseOnFail s2 x1) as [s3 x3]. simpl in *. by rewrite Hfail.
Qed.

(** Provided the library's extraction never reads past the white space
    that ends a token, the call returns true exactly for the strings made
    of one token between white space, where the token is one that the
    extraction reads whole or, upper-cased, one of the special
    spellings. *)
Theorem convert_accepts_iff (str : str) (out : T) :
  (∀ tok tail, is_token tok → ends_token tail →
               (fst (num_get (T:=T) (tok ++ tail)) ≤ length tok)%nat) →
  fst (ConvertStringToReal str out) = true ↔
  ∃ ws1 tok ws2,
    str = ws1 ++ tok ++ ws2 ∧ all_space ws1 ∧ is_token tok ∧ all_space ws2 ∧
    ((∃ v, num_get (tok ++ ws2) = (length tok, Some v)) ∨
     toupper <$> tok ∈ spellings).
Proof.
  intros Hstop.
  assert (∀ ws1 tok ws2, all_space ws1 → is_token tok → all_space ws2 →
            fst (ConvertStringToReal (ws1 ++ tok ++ ws2) out) = true ↔
            (∃ v, num_get (tok ++ ws2) = (length tok, Some v)) ∨
            toupper <$> tok ∈ spellings) as Hone.
  { intros ws1 tok ws2 Hws1 Htok Hws2.
    pose proof (standard_parse_token_fst out ws1 tok ws2 Hws1 Htok
                  (Hstop tok ws2 Htok (all_space_ends_token ws2 Hws2)))
      as Hstd.
    destruct (fst (standard_parse
                     (IStream (ws1 ++ tok ++ ws2) 0 false false) out))
      eqn:Hfst.
    - split; [intros _; left; by apply Hstd|intros _].
      unfold ConvertStringToReal, read_number. simpl negb. cbv iota.
      pose proof (standard_parse_true
                    (IStream (ws1 ++ tok ++ ws2) 0 false false) out Hfst)
        as Hok.
      destruct (standard_parse _ out) as [only [s2 x1]]. simpl in *.
      subst only. simpl. by rewrite Hok.
    - destruct (ConvertStringToReal_fallback (ws1 ++ tok ++ ws2) out
                  ws1 tok ws2) as [x1 ->]; try done.
      rewrite <- inf_nan_map_spellings.
      destruct (inf_nan_map !! (toupper <$> tok)) as [v|]; simpl.
      + split; [intros _; right; eauto|done].
      + split; [done|]. intros [Hwhole|[v Hv]]; [|done].
        destruct Hstd as [_ Hstd]. by apply Hstd. }
  split.
  - intros Hconv. destruct (tokenize str) as [Hall|Htok].
    + rewrite ConvertStringToReal_blank in Hconv by done. discriminate.
    + destruct Htok as (ws1 & tok & tail & -> & Hws1 & Htok & Hend).
      destruct (ends_token_cases tail Hend)
        as [Htail|(c & mid & -> & Hc & Hmid)].
      * exists ws1, tok, tail. repeat (split; [done|]).
        by apply (Hone ws1 tok tail Hws1 Htok Htail).
      * rewrite convert_two_tokens in Hconv; try done.
        by apply Hstop.
  - intros (ws1 & tok & ws2 & -> & Hws1 & Htok & Hws2 & Hcase).
    by apply (Hone ws1 tok ws2 Hws1 Htok Hws2).
Qed.
End convert_facts.

(** ** The reference extraction stops at white space *)

Lemma take_while_Forall {A : Type} (p : A → bool) l :
  Forall (λ a, p a = true) (take_while p l).
Proof.
  induction l as [|a l IH]; simpl; [constructor|].
  destruct (p a) eqn:E; by constructor.
Qed.

Lemma take_while_drop {A : Type} (p : A → bool) l :
  l = take_while p l ++ drop (length (take_while p l)) l.
Proof.
  induction l as [|a l IH]; simpl; [done|].
  destruct (p a); simpl; [by rewrite <- IH|done].
Qed.

Lemma is_digit_not_space c : is_digit c = true → isspace c = false.
Proof.
  unfold is_digit, isspace. intros H.
  apply andb_true_iff in H as [H1 H2].
  apply orb_false_iff. split; [|apply andb_false_iff; right]; lia.
Qed.

Lemma dec_get_prefix (s : str) :
  ∃ pre post, s = pre ++ post ∧ fst (dec_get s) = length pre ∧
              Forall (λ c, isspace c = false) pre.
Proof.
  assert (∃ sign s1, s = sign ++ s1 ∧ drop (length sign) s = s1 ∧
            Forall (λ c, isspace c = false) sign ∧
            (let '(_, k0) :=
               match s with
               | c :: _ => if Ascii.eqb c "-" then (-1, 1%nat)
                           else if Ascii.eqb c "+" then (1, 1%nat) else (1, 0%nat)
               | [] => (1, 0%nat)
               end in k0) = length sign) as (sign & s1 & Hs & Hdrop & Hsign & Hk0).
  { destruct s as [|c s]; [by exists [], []|].
    destruct (Ascii.eqb_spec c "-") as [->|?].
    - exists ["-"%char], s. repeat split; by repeat constructor.
    - destruct (Ascii.eqb_spec c "+") as [->|?].
      + exists ["+"%char], s. repeat split; by repeat constructor.
      + exists [], (c :: s). repeat split; by repeat constructor. }
  unfold dec_get.
  destruct (match s with
            | [] => (1, 0%nat)
            | c :: _ => if Ascii.eqb c "-" then (-1, 1%nat)
                        else if Ascii.eqb c "+" then (1, 1%nat) else (1, 0%nat)
            end) as [sgn k0].
  subst k0. rewrite Hdrop.
  set (ip := take_while is_digit s1).
  pose proof (take_while_drop is_digit s1) as Hs1. fold ip in Hs1.
  set (s2 := drop (length ip) s1) in *.
  assert (Forall (λ c, isspace c = false) ip) as Hip.
  { eapply Forall_impl; [apply take_while_Forall|].
    intros c Hc. by apply is_digit_not_space. }
  assert (∃ frac s3, s2 = frac ++ s3 ∧ Forall (λ c, isspace c = false) frac ∧
            (let '(fp, kdot) :=
               match s2 with
               | c :: r => if Ascii.eqb c "." then (take_while is_digit r, 1%nat)
                           else ([], 0%nat)
               | [] => ([], 0%nat)
               end in (kdot + length fp)%nat) = length frac)
    as (frac & s3 & Hs2 & Hfrac & Hkf).
  { destruct s2 as [|c r]; [by exists [], []|].
    destruct (Ascii.eqb_spec c ".") as [->|?].
    - exists ("."%char :: take_while is_digit r),
        (drop (length (take_while is_digit r)) r).
      split; [simpl; by rewrite <- take_while_drop|].
      split; [|done]. constructor; [done|].
      eapply Forall_impl; [apply take_while_Forall|].
      intros c Hc. by apply is_digit_not_space.
    - exists [], (c :: r). repeat split; by repeat constructor. }
  destruct (match s2 with
            | [] => ([], 0%nat)
            | c :: r => if Ascii.eqb c "." then (take_while is_digit r, 1%nat)
                        else ([], 0%nat)
            end) as [fp kdot].
  exists (sign ++ ip ++ frac), s3.
  split; [by rewrite Hs, Hs1, Hs2, <- !app_assoc|].
  split.
  - rewrite !length_app.
    destruct (length ip + length fp =? 0)%nat; simpl; lia.
  - by rewrite !Forall_app.
Qed.

Lemma dec_get_stops tok tail :
  is_token tok → ends_token tail →
  (fst (dec_get (tok ++ tail)) ≤ length tok)%nat.
Proof.
  intros Htok Hend.
  destruct (dec_get_prefix (tok ++ tail)) as (pre & post & Hsplit & -> & Hpre).
  destruct (Nat.le_gt_cases (length pre) (length tok)) as [?|Hgt]; [done|].
  exfalso.
  assert (pre !! length tok = (tok ++ tail) !! length tok) as Hlook.
  { rewrite Hsplit. by rewrite lookup_app_l. }
  rewrite lookup_app_r, Nat.sub_diag in Hlook by done.
  destruct (lookup_lt_is_Some_2 pre (length tok) Hgt) as [c Hc].
  rewrite Hc in Hlook. destruct tail as [|d tail]; [done|].
  simpl in *. injection Hlook as <-.
  rewrite Forall_forall in Hpre.
  rewrite (Hpre c) in Hend; [done|]. by eapply list_elem_of_lookup_2.
Qed.

Lemma convert_blank_witness :
  fst (ConvertStringToReal [" "; "009"; "010"]%char (Finite 7 0)) = false ∧
  snd (ConvertStringToReal [" "; "009"; "010"]%char (Finite 7 0)) = Finite 7 0.
Proof.
  apply (convert_blank (T:=dec)). repeat constructor.
Defined.

Lemma convert_accepts_iff_witness :
  fst (ConvertStringToReal (lit " 2.5 ") (Finite 0 0)) = true ↔
  ∃ ws1 tok ws2,
    lit " 2.5 " = ws1 ++ tok ++ ws2 ∧ all_space ws1 ∧ is_token tok ∧
    all_space ws2 ∧
    ((∃ v, dec_get (tok ++ ws2) = (length tok, Some v)) ∨
     toupper <$> tok ∈ spellings).
Proof.
  refine (convert_accepts_iff (T:=dec) (lit " 2.5 ") (Finite 0 0) _).
  exact dec_get_stops.
Defined.

(** ** The result does not depend on what [*out] held *)

Section convert_out.
Context {T : Type} `{!Real T}.

Lemma extract_real_out (s : istream) (x x' : T) :
  fst (extract_real s x) = fst (extract_real s x') ∧
  (fail (fst (extract_real s x)) = false →
   snd (extract_real s x) = snd (extract_real s x')).
Proof.
  unfold extract_real, sentry, setstate_failbit.
  destruct (good s); [|done].
  destruct (at_end _ _); [done|].
  destruct (num_get _) as [k [v|]]; done.
Qed.

Lemma standard_parse_out (s : istream) (x x' : T) :
  fst (standard_parse s x) = fst (standard_parse s x') ∧
  fst (snd (standard_parse s x)) = fst (snd (standard_parse s x')) ∧
  (fst (standard_parse s x) = true →
   snd (snd (standard_parse s x)) = snd (snd (standard_parse s x'))).
Proof.
  unfold standard_parse.
  destruct (extract_real_out s x x') as [Hs Hv].
  destruct (extract_real s x) as [s1 x1], (extract_real s x') as [s1' x1'].
  simpl in *. subst s1'.
  destruct (fail s1) eqn:Hf; simpl; [done|].
  destruct (RemainderIsOnlySpaces s1) as [only s2]. simpl.
  repeat split; try done. intros _. by apply Hv.
Qed.

Lemma ParseOnFail_out (s : istream) (x x' : T) :
  fst (ParseOnFail s x) = fst (ParseOnFail s x') ∧
  (fail (fst (ParseOnFail s x)) = false →
   snd (ParseOnFail s x) = snd (ParseOnFail s x')).
Proof.
  unfold ParseOnFail.
  destruct (extract_string (seekg0 (clear s)) []) as [s2 tok].
  destruct (if fail s2 then (true, s2)
            else let '(b, s') := RemainderIsOnlySpaces s2 in (negb b, s'))
    as [many s3].
  destruct many; [done|].
  destruct (inf_nan_map !! (toupper <$> tok)); done.
Qed.

(** Whether the call succeeds does not depend on the value that [*out]
    holds before it, and when it succeeds the value it stores does not
    either: a success never hands back the caller's old value. *)
Theorem convert_ignores_out (str : str) (out out' : T) :
  fst (ConvertStringToReal str out) = fst (ConvertStringToReal str out') ∧
  (fst (ConvertStringToReal str out) = true →
   snd (ConvertStringToReal str out) = snd (ConvertStringToReal str out')).
Proof.
  unfold ConvertStringToReal, read_number. simpl negb. cbv iota.
  destruct (standard_parse_out (IStream str 0 false false) out out')
    as (Honly & Hs & Hv).
  destruct (standard_parse (IStream str 0 false false) out)
    as [only [s2 x1]],
    (standard_parse (IStream str 0 false false) out')
    as [only' [s2' x1']].
  simpl in *. subst only' s2'.
  destruct only; simpl.
  - split; [done|]. intros _. by apply Hv.
  - destruct (ParseOnFail_out s2 x1 x1') as [Hs3 Hv3].
    destruct (ParseOnFail s2 x1) as [s3 x3],
      (ParseOnFail s2 x1') as [s3' x3'].
    simpl in *. subst s3'. split; [done|].
    intros Hok. apply Hv3. by destruct (fail s3).
Qed.
End convert_out.

(** ** More on the merger *)

Lemma run_app_self sp ws1 w ws2 pend :
  classify sp w = SelfTerminating →
  run sp (ws1 ++ w :: ws2) pend =
  run sp ws1 pend ++ emit w ++ run sp ws2 None.
Proof.
  intros Hw. revert pend.
  induction ws1 as [|a ws1 IH]; intros pend; simpl.
  - by rewrite Hw.
  - destruct (classify sp a); rewrite IH; by rewrite <- ?app_assoc.
Qed.

Lemma range_length_le words a b : (length (range words a b) ≤ length words)%nat.
Proof. unfold range. rewrite length_take, length_drop. lia. Qed.

(** A self-terminating fragment is a boundary for the merger: the result
    for a sequence around it is the result for what comes before it, then
    what the fragment's own rule emits, then the result for what comes
    after it.  In particular nothing is ever merged across a white-space
    fragment. *)
Theorem merge_splits_at_self_terminating (ws1 ws2 : list str) (w : str) :
  size (ws1 ++ w :: ws2) < 2 ^ 31 →
  self_terminating IsSpecial w = Ok true →
  ∃ out1 out2,
    MergeCharactersIntoWords ws1 = Ok out1 ∧
    MergeCharactersIntoWords ws2 = Ok out2 ∧
    MergeCharactersIntoWords (ws1 ++ w :: ws2) = Ok (out1 ++ emit w ++ out2).
Proof.
  intros Hsize Hw.
  rewrite size_app, size_cons in Hsize.
  pose proof (size_nonneg ws1). pose proof (size_nonneg ws2).
  exists (run is_special ws1 None), (run is_special ws2 None).
  split; [apply merge_run_small; lia|].
  split; [apply merge_run_small; lia|].
  rewrite merge_run_small by (rewrite size_app, size_cons; lia).
  rewrite run_app_self; [done|].
  rewrite (self_terminating_classify IsSpecial is_special IsSpecial_sp) in Hw.
  by destruct (classify is_special w).
Qed.

Lemma merge_splits_at_self_terminating_witness :
  ∃ out1 out2,
    MergeCharactersIntoWords [lit "a"; lit "b"] = Ok out1 ∧
    MergeCharactersIntoWords [lit "c"; lit "!"; lit "d"] = Ok out2 ∧
    MergeCharactersIntoWords
      ([lit "a"; lit "b"] ++ lit " " :: [lit "c"; lit "!"; lit "d"]) =
    Ok (out1 ++ emit (lit " ") ++ out2).
Proof.
  apply (merge_splits_at_self_terminating
           [lit "a"; lit "b"] [lit "c"; lit "!"; lit "d"] (lit " ")).
  - vm_compute. reflexivity.
  - reflexivity.
Defined.

(** The result never has more words than the input has fragments, and no
    word of it starts with a white-space byte. *)
Theorem merge_output_shape (words : list str) :
  ∃ out, MergeCharactersIntoWords words = Ok out ∧
         (length out ≤ length words)%nat ∧
         Forall (λ w, isspace (first_char w) = false) out.
Proof.
  eexists. split; [apply merge_run|]. split.
  - pose proof (run_length is_special
                  (range words 0 (to_int32 (size words))) None) as Hlen.
    pose proof (range_length_le words 0 (to_int32 (size words))).
    simpl in Hlen. lia.
  - eapply Forall_impl.
    + apply (run_word_ok is_special is_special_not_space); done.
    + by intros w [_ Hw].
Qed.

(** A fragment that [IsSpecial] accepts is the UTF-8 encoding of one
    character: C3 followed by a continuation byte 80..BF other than 97 and
    B7 (a letter of U+00C0..U+00FF, not the signs U+00D7 and U+00F7), or
    E2 80 99 (U+2019). *)
Theorem special_is_one_character (w : str) :
  IsSpecial w = Ok true →
  (∃ c, w = ["195"%char; c] ∧ 0x80 ≤ byte c ≤ 0xbf ∧
        byte c ≠ 0x97 ∧ byte c ≠ 0xb7) ∨
  w = ["226"; "128"; "153"]%char.
Proof.
  intros Hw.
  destruct w as [|c0 [|c1 [|c2 [|c3 w]]]]; try discriminate.
  - left. rewrite IsSpecial_two_bytes in Hw by done.
    destruct (IsDiacritic_total [c0; c1]) as [Heq Hform].
    rewrite Heq in Hw. injection Hw as Hw.
    destruct (Hform Hw) as [c [= -> ->]].
    exists c. split; [done|].
    revert Heq. rewrite Hw. clear.
    destruct c as [[] [] [] [] [] [] [] []]; vm_compute;
      intros H; try discriminate H; repeat split; discriminate.
  - right. unfold IsSpecial in Hw.
    destruct (IsDiacritic_total [c0; c1; c2]) as [Heq Hform].
    rewrite Heq in Hw. simpl in Hw.
    destruct (is_diacritic [c0; c1; c2]) eqn:Hd.
    { destruct (Hform eq_refl) as [c [=]]. }
    simpl in Hw.
    destruct (Z.eqb_spec (byte c0) 226) as [E0|]; [|discriminate].
    destruct (Z.eqb_spec (byte c1) 128) as [E1|]; [|discriminate].
    destruct (Z.eqb_spec (byte c2) 153) as [E2|]; [|discriminate].
    unfold byte in *.
    rewrite <- (ascii_N_embedding c0), <- (ascii_N_embedding c1),
      <- (ascii_N_embedding c2).
    replace (N_of_ascii c0) with 226%N by lia.
    replace (N_of_ascii c1) with 128%N by lia.
    replace (N_of_ascii c2) with 153%N by lia.
    reflexivity.
  - exfalso. unfold IsSpecial in Hw.
    destruct (IsDiacritic_total (c0 :: c1 :: c2 :: c3 :: w)) as [Heq Hform].
    rewrite Heq in Hw.
    assert ((size (c0 :: c1 :: c2 :: c3 :: w) =? 3) = false) as E.
    { rewrite !size_cons. pose proof (size_nonneg w). lia. }
    rewrite E in Hw. cbn [bind] in Hw. injection Hw as Hw.
    rewrite orb_false_r in Hw. destruct (Hform Hw) as [c [=]].
Qed.

Lemma special_is_one_character_witness :
  (∃ c, ["195"; "188"]%char = ["195"%char; c] ∧ 0x80 ≤ byte c ≤ 0xbf ∧
        byte c ≠ 0x97 ∧ byte c ≠ 0xb7) ∨
  ["195"; "188"]%char = ["226"; "128"; "153"]%char.
Proof.
  apply (special_is_one_character ["195"; "188"]%char). reflexivity.
Defined.



(** ** The words of the result as groups of fragments *)

Lemma run_groups sp ws pend :
  run sp ws (match pend with [] => None | _ :: _ => Some (concat pend) end) =
  (λ g, concat g) <$> groups sp ws pend.
Proof.
  revert pend. induction ws as [|w ws IH]; intros pend; simpl.
  - by destruct pend.
  - destruct (classify sp w) eqn:Hk.
    + rewrite !fmap_app. rewrite <- (IH []).
      assert (emit w = (λ g : list str, concat g) <$>
                         (if isspace (first_char w) then [] else [[w]])) as <-.
      { unfold emit. destruct (isspace (first_char w)); simpl;
          by rewrite ?app_nil_r. }
      destruct pend; simpl; by rewrite ?app_nil_r.
    + rewrite <- IH.
      apply classify_continuation in Hk as Hw.
      assert (w ≠ []) as Hne.
      { destruct Hw as [(c & -> & _)|[Hl _]]; [done|by destruct w]. }
      destruct (pend ++ [w]) as [|a l] eqn:E; [by destruct pend|].
      rewrite <- E, concat_app. simpl. rewrite app_nil_r.
      by destruct pend.
    + apply IH.
Qed.

Lemma groups_flat sp ws pend :
  concat (groups sp ws pend) =
  pend ++ List.filter
            (λ w, negb (match classify sp w with SelfTerminating => true | _ => false end
                        && isspace (first_char w))
                  && negb (bool_decide (w = []))) ws.
Proof.
  revert pend. induction ws as [|w ws IH]; intros pend; simpl.
  - destruct pend; simpl; by rewrite ?app_nil_r.
  - destruct (classify sp w) eqn:Hk; simpl.
    + rewrite !concat_app, IH. simpl.
      rewrite (bool_decide_eq_false_2 (w = []))
        by by eapply classify_self_nonempty.
      destruct (isspace (first_char w)), pend; simpl; by rewrite ?app_nil_r.
    + rewrite IH. rewrite bool_decide_eq_false_2.
      * simpl. by rewrite <- app_assoc.
      * apply classify_continuation in Hk as [(c & -> & _)|[Hl _]];
          [done|by destruct w].
    + rewrite IH. rewrite (classify_unrecognized _ _ Hk). reflexivity.
Qed.

Lemma groups_nonempty sp ws pend : Forall (λ g, g ≠ []) (groups sp ws pend).
Proof.
  revert pend. induction ws as [|w ws IH]; intros pend; simpl.
  - destruct pend; by repeat constructor.
  - destruct (classify sp w); try apply IH.
    apply Forall_app. split; [destruct pend; by repeat constructor|].
    apply Forall_app. split; [|apply IH].
    destruct (isspace (first_char w)); by repeat constructor.
Qed.

(** For fewer than 2^31 fragments, the merger never cuts a fragment and
    never reorders: the fragments that are neither dropped nor unrecognized
    fall, in order, into consecutive non-empty groups, and the words of the
    result are the concatenations of these groups, one word for each
    group. *)
Theorem merge_groups_fragments (words : list str) :
  size words < 2 ^ 31 →
  ∃ gs : list (list str),
    MergeCharactersIntoWords words = Ok ((λ g, concat g) <$> gs) ∧
    concat gs = List.filter kept words ∧
    Forall (λ g, g ≠ []) gs.
Proof.
  intros Hsize. exists (groups is_special words []).
  split; [|split].
  - rewrite merge_run_small by done. f_equal. apply (run_groups _ _ []).
  - rewrite groups_flat. simpl.
    apply List.filter_ext. intros w. unfold kept.
    by rewrite dropped_classify, is_unrecognized_empty.
  - apply groups_nonempty.
Qed.

Lemma merge_groups_fragments_witness :
  ∃ gs : list (list str),
    MergeCharactersIntoWords [lit "a"; []; lit "b"; lit " "; lit "cde"; lit "f"] =
      Ok ((λ g, concat g) <$> gs) ∧
    concat gs = [lit "a"; lit "b"; lit "cde"; lit "f"] ∧
    Forall (λ g, g ≠ []) gs.
Proof.
  apply (merge_groups_fragments
           [lit "a"; []; lit "b"; lit " "; lit "cde"; lit "f"]).
  vm_compute. reflexivity.
Defined.
